(** * The alternative-itinerary workflow of [src/server.ts]

    A shallow embedding of the [Chat] agent's scheduling workflow: the request
    classifier and the fingerprint of the user text, the [wrappedOnFinish]
    callback that records and schedules a one-time alternative, and the
    [executeTask] handler that the scheduler calls back, together with the
    preference merge described for the [upsertPreferences] tool. *)

From Stdlib Require Import Ascii String.
From stdpp Require Import gmap strings list fin_maps.

#[local] Set Warnings "-register-all".
#[local] Open Scope N_scope.

(** ** JavaScript strings

    A JavaScript string is a sequence of UTF-16 code units; [charCodeAt]
    returns them as numbers below 65536. *)

Abbreviation jsstring := (list N).

(** The code units of an ASCII literal of the source. *)
Definition lit (s : string) : jsstring :=
  (fun c => N_of_ascii c) <$> list_ascii_of_string s.

(** White space and line terminators, as [String.prototype.trim] and the
    regular expression class [\s] see them. *)
Definition isSpace (c : N) : bool :=
  ((9 <=? c) && (c <=? 13)) || (c =? 32) || (c =? 160) || (c =? 5760)
  || ((8192 <=? c) && (c <=? 8202)) || (c =? 8232) || (c =? 8233)
  || (c =? 8239) || (c =? 8287) || (c =? 12288) || (c =? 65279).

(** [\d] and [\w] without the [u] and [i] flags are ASCII only. *)
Definition isDigit (c : N) : bool := (48 <=? c) && (c <=? 57).

Definition isWordChar (c : N) : bool :=
  ((97 <=? c) && (c <=? 122)) || ((65 <=? c) && (c <=? 90))
  || isDigit c || (c =? 95).

Fixpoint trimStart (t : jsstring) : jsstring :=
  match t with
  | c :: t' => if isSpace c then trimStart t' else t
  | [] => []
  end.

Definition trim (t : jsstring) : jsstring :=
  reverse (trimStart (reverse (trimStart t))).

(** [toLowerCase], one code unit at a time.  The ASCII and Latin-1 capitals
    move to their small letters; the Kelvin sign and the dotted capital I are
    the two characters outside ASCII whose lower case contains an ASCII
    letter.  The case pairs of the other scripts map characters that are
    neither ASCII nor white space to characters that are neither, which the
    four patterns below cannot tell apart, and are left as they are. *)
Definition lowerUnit (c : N) : jsstring :=
  if (65 <=? c) && (c <=? 90) then [c + 32]
  else if (192 <=? c) && (c <=? 222) && negb (c =? 215) then [c + 32]
  else if c =? 8490 then [107]
  else if c =? 304 then [105; 775]
  else [c].

Definition toLowerCase (t : jsstring) : jsstring := t ≫= lowerUnit.

(** ** Regular expressions

    The fragment of the regular expression syntax that the classifier uses,
    matched by backtracking with a continuation; [prev] is the code unit just
    before the current position, which [\b] looks at. *)

Inductive regex :=
| RChar (c : N)
| RWordB
| RSeq (r1 r2 : regex)
| ROpt (r : regex)
| RStarOf (p : N → bool)
| RPlusOf (p : N → bool).

Definition isWordAt (o : option N) : bool :=
  match o with Some c => isWordChar c | None => false end.

Fixpoint starOf (p : N → bool) (k : option N → jsstring → bool)
    (prev : option N) (s : jsstring) : bool :=
  match s with
  | c :: s' => (p c && starOf p k (Some c) s') || k prev s
  | [] => k prev s
  end.

Fixpoint rmatch (r : regex) (k : option N → jsstring → bool)
    (prev : option N) (s : jsstring) : bool :=
  match r with
  | RChar c =>
      match s with
      | x :: s' => (x =? c) && k (Some x) s'
      | [] => false
      end
  | RWordB => xorb (isWordAt prev) (isWordAt (head s)) && k prev s
  | RSeq r1 r2 => rmatch r1 (rmatch r2 k) prev s
  | ROpt r1 => rmatch r1 k prev s || k prev s
  | RStarOf p => starOf p k prev s
  | RPlusOf p =>
      match s with
      | x :: s' => p x && starOf p k (Some x) s'
      | [] => false
      end
  end.

(** [RegExp.prototype.test] without the sticky and global flags: a match may
    start at any position. *)
Fixpoint searchFrom (r : regex) (prev : option N) (s : jsstring) : bool :=
  rmatch r (fun _ _ => true) prev s
  || match s with
     | c :: s' => searchFrom r (Some c) s'
     | [] => false
     end.

Definition test (r : regex) (s : jsstring) : bool := searchFrom r None s.

Definition RWord (w : string) : regex :=
  foldr (fun c r => RSeq (RChar c) r) RWordB (lit w).

(** [/\b(\d+)\s*day(s)?\b/] *)
Definition reDays : regex :=
  RSeq RWordB (RSeq (RPlusOf isDigit) (RSeq (RStarOf isSpace)
    (RSeq (RChar 100) (RSeq (RChar 97) (RSeq (RChar 121)
      (RSeq (ROpt (RChar 115)) RWordB)))))).

(** [/\bweek(end)?\b/] *)
Definition reWeek : regex :=
  RSeq RWordB (RSeq (RChar 119) (RSeq (RChar 101) (RSeq (RChar 101)
    (RSeq (RChar 107)
      (RSeq (ROpt (RSeq (RChar 101) (RSeq (RChar 110) (RChar 100))))
         RWordB))))).

(** [/\bitinerary\b/] and [/\btrip\b/] *)
Definition reItinerary : regex := RSeq RWordB (RWord "itinerary").
Definition reTrip : regex := RSeq RWordB (RWord "trip").

Definition looksLikeItineraryRequest (t : jsstring) : bool :=
  let lower := toLowerCase t in
  test reDays lower || test reWeek lower
  || test reItinerary lower || test reTrip lower.

(** ** The fingerprint *)

(** [x >>> 0] on a non-negative integer below 2^53. *)
Definition toUint32 (x : N) : N := x mod 2 ^ 32.

(** [t.charCodeAt(i)]; the loop below never reads past the end, where
    JavaScript gives [NaN]. *)
Definition charCodeAt (t : jsstring) (i : nat) : N := default 0 (t !! i).

(** [for (let i = 0; i < t.length; i++) h = (h * 31 + t.charCodeAt(i)) >>> 0]
    with [n] iterations left to run. *)
Fixpoint hashLoop (t : jsstring) (n : nat) (i : nat) (h : N) : N :=
  match n with
  | O => h
  | S n' => hashLoop t n' (S i) (toUint32 (h * 31 + charCodeAt t i))
  end.

Definition hexDigit (d : N) : N := if d <? 10 then 48 + d else 87 + d.

(** The digits of [n] in base 16 in front of [acc]; [fuel] bounds their
    number. *)
Fixpoint hexDigits (fuel : nat) (n : N) (acc : jsstring) : jsstring :=
  match fuel with
  | O => acc
  | S fuel' =>
      let acc' := hexDigit (n mod 16) :: acc in
      if n / 16 =? 0 then acc' else hexDigits fuel' (n / 16) acc'
  end.

(** [h.toString(16)] for an unsigned 32-bit [h]. *)
Definition toString16 (h : N) : jsstring := hexDigits 8 h [].

Definition itineraryIdFrom (t : jsstring) : jsstring :=
  let h := hashLoop t (length t) 0 0 in
  lit "itn-" ++ toString16 h.


(** ** JSON values

    What [JSON.parse] returns and [JSON.stringify] takes.  A number is kept as
    the integer it denotes when its numeral is a plain integer of magnitude
    below 2^53, where the arithmetic on doubles is exact; any other numeral
    (a fraction, an exponent, a larger magnitude) is kept as it is written.
    The fields of an object are in insertion order. *)

Inductive jsval :=
| JNull
| JBool (b : bool)
| JNum (n : Z)
| JNumLit (numeral : jsstring)
| JStr (s : jsstring)
| JArr (items : list jsval)
| JObj (fields : list (jsstring * jsval)).

Fixpoint objGet (k : jsstring) (fields : list (jsstring * jsval)) : option jsval :=
  match fields with
  | [] => None
  | (k', v) :: rest => if decide (k' = k) then Some v else objGet k rest
  end.

(** Defining a property keeps the position of a key that is already there. *)
Fixpoint objSet (k : jsstring) (v : jsval) (fields : list (jsstring * jsval))
    : list (jsstring * jsval) :=
  match fields with
  | [] => [(k, v)]
  | (k', v') :: rest =>
      if decide (k' = k) then (k, v) :: rest else (k', v') :: objSet k v rest
  end.

(** *** [JSON.stringify] *)

Fixpoint decDigits (fuel : nat) (n : N) (acc : jsstring) : jsstring :=
  match fuel with
  | O => acc
  | S fuel' =>
      let acc' := (48 + n mod 10) :: acc in
      if n / 10 =? 0 then acc' else decDigits fuel' (n / 10) acc'
  end.

Definition decimalN (n : N) : jsstring := decDigits (N.size_nat n) n [].

Definition decimalZ (n : Z) : jsstring :=
  match n with
  | Z0 => [48]
  | Zpos p => decimalN (Npos p)
  | Zneg p => 45 :: decimalN (Npos p)
  end.

(** [\uXXXX] with four small hexadecimal digits. *)
Definition escapeU (c : N) : jsstring :=
  [92; 117; hexDigit (c / 4096 mod 16); hexDigit (c / 256 mod 16);
   hexDigit (c / 16 mod 16); hexDigit (c mod 16)].

Definition isHighSurrogate (c : N) : bool := (55296 <=? c) && (c <=? 56319).
Definition isLowSurrogate (c : N) : bool := (56320 <=? c) && (c <=? 57343).

(** One code unit that is not part of a surrogate pair. *)
Definition quoteUnit (c : N) : jsstring :=
  if c =? 34 then [92; 34]
  else if c =? 92 then [92; 92]
  else if c =? 8 then [92; 98]
  else if c =? 9 then [92; 116]
  else if c =? 10 then [92; 110]
  else if c =? 12 then [92; 102]
  else if c =? 13 then [92; 114]
  else if c <? 32 then escapeU c
  else if isHighSurrogate c || isLowSurrogate c then escapeU c
  else [c].

Fixpoint quoteUnits (s : jsstring) : jsstring :=
  match s with
  | [] => []
  | c :: s' =>
      match s' with
      | d :: s'' =>
          if isHighSurrogate c && isLowSurrogate d
          then c :: d :: quoteUnits s''
          else quoteUnit c ++ quoteUnits s'
      | [] => quoteUnit c
      end
  end.

Definition quoteJSONString (s : jsstring) : jsstring :=
  34 :: quoteUnits s ++ [34].

Fixpoint JSON_stringify (v : jsval) : jsstring :=
  match v with
  | JNull => lit "null"
  | JBool true => lit "true"
  | JBool false => lit "false"
  | JNum n => decimalZ n
  | JNumLit numeral => numeral
  | JStr s => quoteJSONString s
  | JArr items =>
      91 :: (fix go (l : list jsval) : jsstring :=
               match l with
               | [] => []
               | x :: l' =>
                   match l' with
                   | [] => JSON_stringify x
                   | _ :: _ => JSON_stringify x ++ 44 :: go l'
                   end
               end) items ++ [93]
  | JObj fields =>
      123 :: (fix go (l : list (jsstring * jsval)) : jsstring :=
                match l with
                | [] => []
                | (k, x) :: l' =>
                    match l' with
                    | [] => quoteJSONString k ++ 58 :: JSON_stringify x
                    | _ :: _ =>
                        quoteJSONString k ++ 58 :: JSON_stringify x ++ 44 :: go l'
                    end
                end) fields ++ [125]
  end.

(** *** [JSON.parse] *)

Definition isJsonSpace (c : N) : bool :=
  (c =? 32) || (c =? 9) || (c =? 10) || (c =? 13).

Fixpoint skipWs (s : jsstring) : jsstring :=
  match s with
  | c :: s' => if isJsonSpace c then skipWs s' else s
  | [] => []
  end.

Definition hexVal (c : N) : option N :=
  if isDigit c then Some (c - 48)
  else if (97 <=? c) && (c <=? 102) then Some (c - 87)
  else if (65 <=? c) && (c <=? 70) then Some (c - 55)
  else None.

Definition hex4 (h1 h2 h3 h4 : N) : option N :=
  a ← hexVal h1; b ← hexVal h2; c ← hexVal h3; d ← hexVal h4;
  Some (((a * 16 + b) * 16 + c) * 16 + d).

Definition unescape (e : N) : option N :=
  if e =? 34 then Some 34
  else if e =? 92 then Some 92
  else if e =? 47 then Some 47
  else if e =? 98 then Some 8
  else if e =? 102 then Some 12
  else if e =? 110 then Some 10
  else if e =? 114 then Some 13
  else if e =? 116 then Some 9
  else None.

Definition consUnit (c : N) (r : option (jsstring * jsstring))
    : option (jsstring * jsstring) :=
  match r with
  | Some (str, rest) => Some (c :: str, rest)
  | None => None
  end.

(** The characters of a string after its opening quote, up to and including
    the closing quote. *)
Fixpoint parseChars (s : jsstring) : option (jsstring * jsstring) :=
  match s with
  | [] => None
  | c :: rest =>
      if c =? 34 then Some ([], rest)
      else if c =? 92 then
        match rest with
        | [] => None
        | e :: rest1 =>
            if e =? 117 then
              match rest1 with
              | h1 :: h2 :: h3 :: h4 :: rest2 =>
                  match hex4 h1 h2 h3 h4 with
                  | Some u => consUnit u (parseChars rest2)
                  | None => None
                  end
              | _ => None
              end
            else
              match unescape e with
              | Some u => consUnit u (parseChars rest1)
              | None => None
              end
        end
      else if c <? 32 then None
      else consUnit c (parseChars rest)
  end.

Fixpoint spanDigits (s : jsstring) : jsstring * jsstring :=
  match s with
  | c :: s' =>
      if isDigit c then let '(ds, r) := spanDigits s' in (c :: ds, r)
      else ([], s)
  | [] => ([], [])
  end.

Definition digitsValue (ds : jsstring) : N :=
  foldl (fun acc d => acc * 10 + (d - 48)) 0 ds.

(** A numeral: an optional minus sign, an integer part without a leading
    zero, an optional fraction and an optional exponent. *)
Definition lexNumber (s : jsstring) : option (jsval * jsstring) :=
  let '(sign, s1) :=
    match s with
    | c :: r => if c =? 45 then ([45], r) else ([], s)
    | [] => ([], s)
    end in
  let '(ds, s2) := spanDigits s1 in
  match ds with
  | [] => None
  | d :: ds' =>
      if (d =? 48) && negb (bool_decide (ds' = [])) then None
      else
        let frac :=
          match s2 with
          | c :: r =>
              if c =? 46 then
                let '(fs, s3) := spanDigits r in
                match fs with [] => None | _ :: _ => Some (46 :: fs, s3) end
              else Some ([], s2)
          | [] => Some ([], s2)
          end in
        match frac with
        | None => None
        | Some (fs, s3) =>
            let expo :=
              match s3 with
              | c :: r =>
                  if (c =? 101) || (c =? 69) then
                    let '(sg, r1) :=
                      match r with
                      | g :: r' =>
                          if (g =? 43) || (g =? 45) then ([g], r') else ([], r)
                      | [] => ([], r)
                      end in
                    let '(es, s4) := spanDigits r1 in
                    match es with
                    | [] => None
                    | _ :: _ => Some (c :: sg ++ es, s4)
                    end
                  else Some ([], s3)
              | [] => Some ([], s3)
              end in
            match expo with
            | None => None
            | Some (es, s4) =>
                let n := digitsValue ds in
                if bool_decide (fs = []) && bool_decide (es = [])
                   && (n <? 2 ^ 53)
                then Some (JNum (if bool_decide (sign = [])
                                 then Z.of_N n else - Z.of_N n), s4)
                else Some (JNumLit (sign ++ ds ++ fs ++ es), s4)
            end
        end
  end.

Fixpoint dropPrefix (p s : jsstring) : option jsstring :=
  match p with
  | [] => Some s
  | c :: p' =>
      match s with
      | x :: s' => if x =? c then dropPrefix p' s' else None
      | [] => None
      end
  end.

Definition parseKeyword (s : jsstring) : option (jsval * jsstring) :=
  match dropPrefix (lit "true") s with
  | Some r => Some (JBool true, r)
  | None =>
      match dropPrefix (lit "false") s with
      | Some r => Some (JBool false, r)
      | None =>
          match dropPrefix (lit "null") s with
          | Some r => Some (JNull, r)
          | None => None
          end
      end
  end.

(** Recursive descent; [fuel] bounds the number of nested calls. *)
Fixpoint parseValue (fuel : nat) (s : jsstring) : option (jsval * jsstring) :=
  match fuel with
  | O => None
  | S f =>
      match skipWs s with
      | [] => None
      | c :: r =>
          if c =? 123 then
            match skipWs r with
            | c' :: r' =>
                if c' =? 125 then Some (JObj [], r') else parseMembers f [] r
            | [] => None
            end
          else if c =? 91 then
            match skipWs r with
            | c' :: r' =>
                if c' =? 93 then Some (JArr [], r') else parseElements f [] r
            | [] => None
            end
          else if c =? 34 then
            match parseChars r with
            | Some (str, r') => Some (JStr str, r')
            | None => None
            end
          else if (c =? 45) || isDigit c then lexNumber (c :: r)
          else parseKeyword (c :: r)
      end
  end
with parseElements (fuel : nat) (acc : list jsval) (s : jsstring)
    : option (jsval * jsstring) :=
  match fuel with
  | O => None
  | S f =>
      match parseValue f s with
      | Some (v, r) =>
          match skipWs r with
          | c :: r' =>
              if c =? 44 then parseElements f (acc ++ [v]) r'
              else if c =? 93 then Some (JArr (acc ++ [v]), r')
              else None
          | [] => None
          end
      | None => None
      end
  end
with parseMembers (fuel : nat) (acc : list (jsstring * jsval)) (s : jsstring)
    : option (jsval * jsstring) :=
  match fuel with
  | O => None
  | S f =>
      match skipWs s with
      | c :: r =>
          if c =? 34 then
            match parseChars r with
            | Some (k, r1) =>
                match skipWs r1 with
                | c1 :: r2 =>
                    if c1 =? 58 then
                      match parseValue f r2 with
                      | Some (v, r3) =>
                          match skipWs r3 with
                          | c3 :: r4 =>
                              if c3 =? 44
                              then parseMembers f (objSet k v acc) r4
                              else if c3 =? 125
                              then Some (JObj (objSet k v acc), r4)
                              else None
                          | [] => None
                          end
                      | None => None
                      end
                    else None
                | [] => None
                end
            | None => None
            end
          else None
      | [] => None
      end
  end.

(** [JSON.parse]: one value with white space around it; [None] stands for the
    [SyntaxError] it throws.  Every call of the descent is made after at least
    one more character was read or one call earlier, so twice the length is
    fuel enough. *)
Definition JSON_parse (s : jsstring) : option jsval :=
  match parseValue (2 * length s + 2) s with
  | Some (v, r) =>
      match skipWs r with
      | [] => Some v
      | _ :: _ => None
      end
  | None => None
  end.

(** ** The durable state of the agent *)

(** A preference value: the [unknown] of [Record<string, unknown>], as the
    tagged union of scalars, lists and mappings. *)
Inductive pval :=
| PNull
| PBool (b : bool)
| PNum (n : Z)
| PStr (s : jsstring)
| PList (l : list pval)
| PMap (m : gmap jsstring pval).

Record Profile := {
  preferences : option (gmap jsstring pval);
  notes : option jsstring
}.

Record Itinerary := {
  itn_id : jsstring;
  itn_text : jsstring;
  itn_createdAt : jsstring
}.

(** [AgentState]; every field is optional. *)
Record AgentState := {
  profile : option Profile;
  itineraryCounter : option Z;
  altOfferedFor : option (gmap jsstring bool);
  lastItinerary : option Itinerary
}.

(** The object [{}]. *)
Definition emptyState : AgentState :=
  {| profile := None; itineraryCounter := None;
     altOfferedFor := None; lastItinerary := None |}.

#[global] Instance Itinerary_eq_dec : EqDecision Itinerary.
Proof. solve_decision. Defined.

(** ** The agent and its collaborators *)

Inductive Role := user | assistant | system.

(** A message part is a piece of text or something else (a tool call, a
    file). *)
Inductive Part :=
| TextPart (text : jsstring)
| OtherPart.

(** A chat message; its generated [id] and its [metadata] time stamp play no
    part in the workflow and are left out. *)
Record Message := { role : Role; parts : list Part }.

(** What [this.schedule(delay, callback, payload)] stores. *)
Record Task := { delay : N; callback : string; payload : jsstring }.

(** What a call of [generateText] does: it throws or it returns a text. *)
Inductive GenOutcome :=
| GenThrows
| GenText (text : jsstring).

(** The calls the agent makes on its collaborators, in the order it makes
    them.  The prompt of the generator is determined by the preferences, the
    notes and the base text, which stand for it. *)
Inductive Event :=
| EvSetState (s : AgentState)
| EvSchedule (t : Task)
| EvGenerate (prefs : gmap jsstring pval) (notes : option jsstring) (base : jsstring)
| EvSaveMessages (msgs : list Message).

(** The durable object: [this.state] (absent before the first [setState]),
    [this.messages], the scheduled tasks that have not fired yet, and the
    calls made so far. *)
Record World := {
  state : option AgentState;
  messages : list Message;
  schedules : list Task;
  trace : list Event
}.

Definition initialWorld : World :=
  {| state := None; messages := []; schedules := []; trace := [] |}.

(** Agent methods thread the durable object. *)
Definition Agent (A : Type) : Type := World → A * World.

#[global] Instance Agent_ret : MRet Agent := fun A x w => (x, w).
#[global] Instance Agent_bind : MBind Agent :=
  fun A B f m w => let '(x, w') := m w in f x w'.

Definition getState : Agent (option AgentState) := fun w => (state w, w).

Definition getMessages : Agent (list Message) := fun w => (messages w, w).

Definition setState (s : AgentState) : Agent unit := fun w =>
  (tt, {| state := Some s; messages := messages w; schedules := schedules w;
          trace := trace w ++ [EvSetState s] |}).

Definition schedule (d : N) (cb : string) (p : jsstring) : Agent unit := fun w =>
  let t := {| delay := d; callback := cb; payload := p |} in
  (tt, {| state := state w; messages := messages w;
          schedules := schedules w ++ [t]; trace := trace w ++ [EvSchedule t] |}).

(** The write of the log in [this.saveMessages(msgs)].  The method of
    [AIChatAgent] goes on to start a chat turn on the stored log; the turn is
    a step of its own, [onChatMessage] below, and [executeTaskAndTurn] puts
    the two together. *)
Definition saveMessages (msgs : list Message) : Agent unit := fun w =>
  (tt, {| state := state w; messages := msgs; schedules := schedules w;
          trace := trace w ++ [EvSaveMessages msgs] |}).

Definition generateText (prefs : gmap jsstring pval) (notes : option jsstring)
    (base : jsstring) (outcome : GenOutcome) : Agent GenOutcome := fun w =>
  (outcome, {| state := state w; messages := messages w; schedules := schedules w;
               trace := trace w ++ [EvGenerate prefs notes base] |}).

(** The property names every plain object inherits from [Object.prototype];
    reading one of them from an object that has no such field of its own
    gives a function or an object, which is truthy. *)
Definition objectPrototypeKeys : list jsstring :=
  lit <$> ["constructor"; "__defineGetter__"; "__defineSetter__";
           "hasOwnProperty"; "__lookupGetter__"; "__lookupSetter__";
           "isPrototypeOf"; "propertyIsEnumerable"; "toString"; "valueOf";
           "__proto__"; "toLocaleString"].

(** Whether [m[k]] is truthy. *)
Definition offered (m : gmap jsstring bool) (k : jsstring) : bool :=
  match m !! k with
  | Some b => b
  | None => bool_decide (k ∈ objectPrototypeKeys)
  end.

(** [(part?.text || "").trim()] for the first text part of the last user
    message. *)
Definition lastUserText (msgs : list Message) : jsstring :=
  let last :=
    List.find (fun m => match role m with user => true | _ => false end)
              (reverse msgs) in
  let part :=
    last ≫= fun m =>
      List.find (fun p => match p with TextPart _ => true | OtherPart => false end)
                (parts m) in
  trim match part with Some (TextPart t) => t | _ => [] end.

(** [JSON.stringify({ kind: "altItinerary", itineraryId })] and
    [JSON.stringify({ kind: "altItinerary", itineraryId, retry })] *)
Definition altPayload (itineraryId : jsstring) (retry : option jsval) : jsval :=
  JObj ([(lit "kind", JStr (lit "altItinerary"));
         (lit "itineraryId", JStr itineraryId)]
        ++ match retry with Some r => [(lit "retry", r)] | None => [] end).

(** The scheduling half of [wrappedOnFinish], after the framework's own
    [onFinish] ran: [lastUserText] is the trimmed text of the user,
    [finalText] is [final?.text], [now] is [new Date().toISOString()].  The
    [try] around it catches nothing here: none of the modelled calls throws. *)
Definition wrappedOnFinish (lastUserText : jsstring) (finalText : option jsstring)
    (now : jsstring) : Agent unit :=
  if bool_decide (lastUserText = []) || negb (looksLikeItineraryRequest lastUserText)
  then mret tt
  else
    st ← getState;
    let s := default emptyState st in
    let itineraryId := itineraryIdFrom lastUserText in
    let already :=
      match altOfferedFor s with
      | Some m => offered m itineraryId
      | None => false
      end in
    if already then mret tt
    else
      setState {| profile := profile s;
                  itineraryCounter := itineraryCounter s;
                  lastItinerary :=
                    Some {| itn_id := itineraryId;
                            itn_text := default [] finalText;
                            itn_createdAt := now |};
                  altOfferedFor :=
                    Some (<[itineraryId := false]> (default ∅ (altOfferedFor s))) |};;
      schedule 15 "executeTask" (JSON_stringify (altPayload itineraryId None)).

(** [onChatMessage] reads the user text off the message log and hands
    [wrappedOnFinish] to the stream. *)
Definition onChatMessage (finalText : option jsstring) (now : jsstring) : Agent unit :=
  msgs ← getMessages;
  wrappedOnFinish (lastUserText msgs) finalText now.

(** How [executeTask] ends. *)
Inductive Completion :=
| Returned
| Threw.

(** Reading a property of a parsed payload that is not [null]: an object has
    its own fields; numbers, strings, booleans and arrays have none of the
    three names that [executeTask] reads. *)
Definition getProp (v : jsval) (k : string) : option jsval :=
  match v with
  | JObj fields => objGet (lit k) fields
  | _ => None
  end.

Definition isNull (v : jsval) : bool :=
  match v with JNull => true | _ => false end.

(** [o === k] for a string literal [k]. *)
Definition isString (k : string) (o : option jsval) : bool :=
  match o with
  | Some (JStr s) => bool_decide (s = lit k)
  | _ => false
  end.

(** Whether the conversion of a parsed value to a primitive throws a
    [TypeError], as a property key in [offeredMap[itineraryId]] and as an
    operand in [(payload.retry ?? 0) + 1].  No value read from JSON is
    callable, so an object with a key ["toString"] of its own hides the
    inherited method and is left with [valueOf], which returns the object
    itself: there is no primitive for it.  An array is joined from the
    strings of its elements, [null] giving the empty one. *)
Fixpoint conversionThrows (v : jsval) : bool :=
  match v with
  | JObj fields =>
      match objGet (lit "toString") fields with
      | Some _ => true
      | None => false
      end
  | JArr items => existsb conversionThrows items
  | _ => false
  end.

(** Whether [(payload.retry ?? 0) + 1] throws. *)
Definition retryThrows (r : option jsval) : bool :=
  match r with
  | Some v => conversionThrows v
  | None => false
  end.

(** The parts of JavaScript's coercions that the embedding leaves open:
    whether the number of a numeral kept as written is truthy, and what
    [(retry ?? 0) + 1] is for a [retry] that is not of its declared type
    (a string, an array, an object) or is such a numeral, when the sum does
    not throw: [Some v] when the sum is [v] and [v <= 1] holds, [None] when
    it does not hold.  No payload that this program writes gets there. *)
Record Runtime := {
  numeralTruthy : jsstring → bool;
  retryCoerced : jsval → option jsval
}.

Section WithRuntime.

Context (rt : Runtime).

Definition truthy (o : option jsval) : bool :=
  match o with
  | None => false
  | Some JNull => false
  | Some (JBool b) => b
  | Some (JNum n) => negb (n =? 0)%Z
  | Some (JNumLit numeral) => numeralTruthy rt numeral
  | Some (JStr s) => negb (bool_decide (s = []))
  | Some (JArr _) => true
  | Some (JObj _) => true
  end.

(** [const retry = (payload.retry ?? 0) + 1; if (retry <= 1) ...]: the new
    count when the retry is scheduled.  There is none when the sum throws. *)
Definition nextRetry (r : option jsval) : option jsval :=
  match r with
  | None => Some (JNum 1)
  | Some JNull => Some (JNum 1)
  | Some (JNum n) => if (n + 1 <=? 1)%Z then Some (JNum (n + 1)) else None
  | Some (JBool b) => if b then None else Some (JNum 1)
  | Some v => if conversionThrows v then None else retryCoerced rt v
  end.

Definition altMessage (itineraryId finalAlt : jsstring) : Message :=
  {| role := assistant;
     parts := [TextPart (lit "**Alternative itinerary (" ++ itineraryId
                         ++ lit ")**" ++ [10; 10] ++ finalAlt)] |}.

Definition defaultMessage (description : jsstring) : Message :=
  {| role := user;
     parts := [TextPart (lit "Running scheduled task: " ++ description)] |}.

(** [altText?.trim()] when it is not empty. *)
Definition finalAltOf (o : GenOutcome) : option jsstring :=
  match o with
  | GenThrows => None
  | GenText t => if bool_decide (trim t = []) then None else Some (trim t)
  end.

(** The branch of [executeTask] for [kind === "altItinerary"] with a string
    [itineraryId].  The [catch] is entered when the generator throws and on
    the empty text; the store and the message log are taken not to fail.  A
    [TypeError] of the sum in the [catch] block leaves [executeTask]. *)
Definition alternativeFor (itineraryId : jsstring) (retry : option jsval)
    (gen : GenOutcome) : Agent Completion :=
  st ← getState;
  let s := default emptyState st in
  let offeredMap := default ∅ (altOfferedFor s) in
  if offered offeredMap itineraryId then mret Returned
  else
    match lastItinerary s with
    | None => mret Returned
    | Some base =>
        if negb (bool_decide (itn_id base = itineraryId)) then mret Returned
        else
          let prefs := default ∅ (profile s ≫= preferences) in
          let notes := profile s ≫= notes in
          out ← generateText prefs notes (itn_text base) gen;
          match finalAltOf out with
          | Some finalAlt =>
              setState {| profile := profile s;
                          itineraryCounter := itineraryCounter s;
                          lastItinerary := lastItinerary s;
                          altOfferedFor :=
                            Some (<[itineraryId := true]> offeredMap) |};;
              msgs ← getMessages;
              saveMessages (msgs ++ [altMessage itineraryId finalAlt]);;
              mret Returned
          | None =>
              if retryThrows retry then mret Threw
              else
                match nextRetry retry with
                | Some retry' =>
                    schedule 10 "executeTask"
                      (JSON_stringify (altPayload itineraryId (Some retry')));;
                    mret Returned
                | None => mret Returned
                end
          end
    end.

(** [executeTask(description, _task)] with the outcome [gen] of the call of
    the generator, if it comes to that.  A [description] that is not JSON
    leaves [payload] at [{}]; on the JSON text [null] the payload is [null]
    and reading [payload.kind] throws a [TypeError] outside of any [try].  A
    truthy [itineraryId] that is not a string is converted to a property key
    by [offeredMap[itineraryId]], which throws when there is no such
    conversion; otherwise the run leaves through one of the two guards: the
    value is never [===] the string [base.id]. *)
Definition executeTask (description : jsstring) (gen : GenOutcome)
    : Agent Completion :=
  let payload := default (JObj []) (JSON_parse description) in
  if isNull payload then mret Threw
  else if isString "altItinerary" (getProp payload "kind")
          && truthy (getProp payload "itineraryId")
  then
    match getProp payload "itineraryId" with
    | Some (JStr itineraryId) =>
        alternativeFor itineraryId (getProp payload "retry") gen
    | Some itineraryId =>
        if conversionThrows itineraryId then mret Threw else mret Returned
    | None => mret Returned
    end
  else
    msgs ← getMessages;
    saveMessages (msgs ++ [defaultMessage description]);;
    mret Returned.

(** Whether [executeTask] takes [description] for an alternative of the
    itinerary [itineraryId]: it parses to a value other than [null] with the
    kind ["altItinerary"] and that truthy string as [itineraryId]. *)
Definition targets (description itineraryId : jsstring) : bool :=
  match JSON_parse description with
  | Some v =>
      negb (isNull v) && isString "altItinerary" (getProp v "kind")
      && truthy (getProp v "itineraryId")
      && match getProp v "itineraryId" with
         | Some (JStr i) => bool_decide (i = itineraryId)
         | _ => false
         end
  | None => false
  end.

(** The retry hint that [description] carries. *)
Definition retryHint (description : jsstring) : option jsval :=
  JSON_parse description ≫= fun v => getProp v "retry".

(** ** The scheduler

    The scheduler takes the oldest task off its table and calls
    [executeTask] with its payload; [gen] is the outcome of the call of the
    generator during that run. *)
Definition fire (gen : GenOutcome) : Agent (option Completion) := fun w =>
  match schedules w with
  | [] => (None, w)
  | t :: rest =>
      let '(c, w') :=
        executeTask (payload t) gen
          {| state := state w; messages := messages w;
             schedules := rest; trace := trace w |} in
      (Some c, w')
  end.

(** Fire tasks until none is left; [gen i] is what the generator does in run
    number [i], and the result counts the runs. *)
Fixpoint runScheduler (fuel : nat) (gen : nat → GenOutcome) (i : nat)
    : Agent nat := fun w =>
  match fuel with
  | O => (i, w)
  | S fuel' =>
      match fire (gen i) w with
      | (None, w') => (i, w')
      | (Some _, w') => runScheduler fuel' gen (S i) w'
      end
  end.

End WithRuntime.

(** A runtime for the runs in which nothing is coerced. *)
Definition plainRuntime : Runtime :=
  {| numeralTruthy := fun _ => true; retryCoerced := fun _ => None |}.

(** ** The preference store *)

(** Modelled from the spec: the deep merge of the [upsertPreferences] tool,
    whose file [tools.ts] is not among the sources.  For each key of the
    delta, if both the existing and the incoming value are mappings they are
    merged recursively, otherwise the incoming value replaces the existing
    one; the keys that the delta does not have stay. *)
Fixpoint mergeValue (existing : option pval) (incoming : pval) : pval :=
  match incoming, existing with
  | PMap d, Some (PMap p) =>
      PMap (map_imap (fun k x => Some (mergeValue (p !! k) x)) d ∪ p)
  | _, _ => incoming
  end.

Definition deepMerge (existing delta : gmap jsstring pval) : gmap jsstring pval :=
  map_imap (fun k x => Some (mergeValue (existing !! k) x)) delta ∪ existing.

(** Modelled from the spec: [upsert(delta, notes?)] merges the delta into
    [profile.preferences], replaces [profile.notes] when notes are given, and
    writes the state back in one read-modify-write.  The acknowledgment text
    it returns is not modelled. *)
Definition upsert (delta : gmap jsstring pval) (newNotes : option jsstring)
    : Agent unit :=
  st ← getState;
  let s := default emptyState st in
  let prefs := default ∅ (profile s ≫= preferences) in
  setState {| profile :=
                Some {| preferences := Some (deepMerge prefs delta);
                        notes := match newNotes with
                                 | Some n => Some n
                                 | None => profile s ≫= notes
                                 end |};
              itineraryCounter := itineraryCounter s;
              altOfferedFor := altOfferedFor s;
              lastItinerary := lastItinerary s |}.

(** ** The workflow as a state machine *)

(** The status of a fingerprint as the specification names it.  The code
    keeps one boolean per fingerprint in [altOfferedFor]: no entry, [false]
    from scheduling on, [true] once the alternative was posted.  No value
    stands for [ABANDONED]. *)
Inductive Status := NONE | SCHEDULED | COMPLETED | ABANDONED.

Definition marker (w : World) (f : jsstring) : option bool :=
  s ← state w; m ← altOfferedFor s; m !! f.

Definition statusOf (w : World) (f : jsstring) : Status :=
  match marker w f with
  | None => NONE
  | Some false => SCHEDULED
  | Some true => COMPLETED
  end.

Definition terminal (st : Status) : bool :=
  match st with
  | COMPLETED | ABANDONED => true
  | NONE | SCHEDULED => false
  end.

Definition rank (st : Status) : nat :=
  match st with
  | NONE => 0
  | SCHEDULED => 1
  | COMPLETED | ABANDONED => 2
  end.

(** The base output kept for [f], if the last itinerary is the one of [f]. *)
Definition baseFor (w : World) (f : jsstring) : option Itinerary :=
  s ← state w; b ← lastItinerary s;
  if decide (itn_id b = f) then Some b else None.

(** The events that change the durable object. *)
Inductive Op :=
| OnPrimaryProduced (text : jsstring) (finalText : option jsstring) (now : jsstring)
| OnDeferredInvoke (description : jsstring) (gen : GenOutcome)
| Upsert (delta : gmap jsstring pval) (newNotes : option jsstring).

Definition step (rt : Runtime) (op : Op) (w : World) : World :=
  match op with
  | OnPrimaryProduced t f n => (wrappedOnFinish t f n w).2
  | OnDeferredInvoke d g => (executeTask rt d g w).2
  | Upsert d n => (upsert d n w).2
  end.

Definition run (rt : Runtime) (ops : list Op) (w : World) : World :=
  foldl (fun w op => step rt op w) w ops.

Definition reachable (rt : Runtime) (w : World) : Prop :=
  ∃ ops, w = run rt ops initialWorld.

(** The kinds of events, to count them. *)
Definition isGenerate (e : Event) : bool :=
  match e with EvGenerate _ _ _ => true | _ => false end.
Definition isSetState (e : Event) : bool :=
  match e with EvSetState _ => true | _ => false end.
Definition isSchedule (e : Event) : bool :=
  match e with EvSchedule _ => true | _ => false end.
Definition isSaveMessages (e : Event) : bool :=
  match e with EvSaveMessages _ => true | _ => false end.

Definition count (p : Event → bool) (es : list Event) : nat :=
  length (List.filter p es).

(** The task that [wrappedOnFinish] schedules for a fingerprint. *)
Definition firstTask (f : jsstring) : Task :=
  {| delay := 15; callback := "executeTask";
     payload := JSON_stringify (altPayload f None) |}.

(** The state that [wrappedOnFinish] writes over [s]. *)
Definition recorded (f : jsstring) (finalText : option jsstring) (now : jsstring)
    (s : AgentState) : AgentState :=
  {| profile := profile s;
     itineraryCounter := itineraryCounter s;
     lastItinerary :=
       Some {| itn_id := f; itn_text := default [] finalText; itn_createdAt := now |};
     altOfferedFor := Some (<[f := false]> (default ∅ (altOfferedFor s))) |}.

(** The base output on which [executeTask] computes the alternative of [f]:
    there is one when the marker of [f] is not truthy and the last itinerary
    is the one of [f]. *)
Definition ready (w : World) (f : jsstring) : option Itinerary :=
  let s := default emptyState (state w) in
  if offered (default ∅ (altOfferedFor s)) f then None
  else
    match lastItinerary s with
    | Some b => if decide (itn_id b = f) then Some b else None
    | None => None
    end.

(** The state that [executeTask] writes over [s] when it posts. *)
Definition completedState (f : jsstring) (s : AgentState) : AgentState :=
  {| profile := profile s;
     itineraryCounter := itineraryCounter s;
     lastItinerary := lastItinerary s;
     altOfferedFor := Some (<[f := true]> (default ∅ (altOfferedFor s))) |}.

(** The task of a retry with the count [r]. *)
Definition retryTask (f : jsstring) (r : jsval) : Task :=
  {| delay := 10; callback := "executeTask";
     payload := JSON_stringify (altPayload f (Some r)) |}.

(** The tasks that a failed run enqueues: at most one. *)
Definition retryTasks (rt : Runtime) (f : jsstring) (retry : option jsval)
    : list Task :=
  match nextRetry rt retry with
  | Some r => [retryTask f r]
  | None => []
  end.

(** What the generator is called with in a run on the state [s]. *)
Definition generateEvent (s : AgentState) (b : Itinerary) : Event :=
  EvGenerate (default ∅ (profile s ≫= preferences)) (profile s ≫= notes)
    (itn_text b).

(** Whether [executeTask] falls through to the behaviour of the starter on
    [description]: it is not JSON, or it parses to a value other than [null]
    that lacks the kind ["altItinerary"] or a truthy [itineraryId]. *)
Definition fallsToDefault (rt : Runtime) (description : jsstring) : bool :=
  match JSON_parse description with
  | Some v =>
      negb (isNull v)
      && negb (isString "altItinerary" (getProp v "kind")
               && truthy rt (getProp v "itineraryId"))
  | None => true
  end.

(** Several runs of [executeTask] in a row, each with its description and
    the outcome of its call of the generator. *)
Definition invokeAll (rt : Runtime) (runs : list (jsstring * GenOutcome))
    (w : World) : World :=
  foldl (fun w r => (executeTask rt r.1 r.2 w).2) w runs.

(** Whenever there is a last itinerary, its fingerprint has a marker. *)
Definition baseHasMarker (w : World) : Prop :=
  ∀ b, lastItinerary (default emptyState (state w)) = Some b →
       is_Some (marker w (itn_id b)).

(** ** The fingerprint as a polynomial *)

(** The hash written out: the sum of [c_i * 31^(n-1-i)] modulo 2^32. *)
Fixpoint polynomial (t : jsstring) : N :=
  match t with
  | [] => 0
  | c :: t' => c * 31 ^ N.of_nat (length t') + polynomial t'
  end.

(** ** Reading a fingerprint back *)

Definition isLowerHex (c : N) : bool :=
  isDigit c || ((97 <=? c) && (c <=? 102)).

(** The number that a string of hexadecimal digits denotes. *)
Definition hexValue (ds : jsstring) : N :=
  foldl (fun a d => a * 16 + default 0 (hexVal d)) 0 ds.

(** A fingerprint of a text that the classifier accepts. *)
Definition fromAccepted (f : jsstring) : Prop :=
  ∃ t, looksLikeItineraryRequest t = true ∧ f = itineraryIdFrom t.


(** Whether every match of [r] reads the code unit [c]: it is a literal of
    [r] outside of any optional part. *)
Fixpoint needsUnit (c : N) (r : regex) : bool :=
  match r with
  | RChar c' => c' =? c
  | RSeq r1 r2 => needsUnit c r1 || needsUnit c r2
  | _ => false
  end.

(** ** The tasks of the workflow *)




(** What holds of every durable object that the events produce: the keys
    of the markers and the fingerprint of the last itinerary are fingerprints
    of accepted texts, and so are the fingerprints of the scheduled tasks,
    each of which is a first task or a retry. *)
Definition recordsOfAccepted (w : World) : Prop :=
  (∀ f, is_Some (marker w f) → fromAccepted f)
  ∧ (∀ b, lastItinerary (default emptyState (state w)) = Some b →
          fromAccepted (itn_id b))
  ∧ Forall (fun t => ∃ f, fromAccepted f
                        ∧ (t = firstTask f ∨ ∃ r, t = retryTask f r))
           (schedules w).

(** ** The chat turn that [saveMessages] starts *)

(** Whether the run from [w] to [w'] called [saveMessages]. *)
Definition savedMessages (w w' : World) : bool :=
  (count isSaveMessages (trace w) <? count isSaveMessages (trace w'))%nat.

(** [this.saveMessages] of [AIChatAgent] does more than replace the log: it
    then starts a chat turn on the stored messages, that is [onChatMessage],
    whose stream ends in [wrappedOnFinish].  In [executeTask] each of the two
    calls of [saveMessages] is the last statement before the return, so the
    turn follows every run that saved messages; [reply] is the text that the
    model answers with in that turn and [now] the time it finishes.  What the
    framework does with the answer and what the tools of the model do during
    the turn is not part of the workflow and is left out, as in
    [onChatMessage]. *)
Definition executeTaskAndTurn (rt : Runtime) (description : jsstring)
    (gen : GenOutcome) (reply : option jsstring) (now : jsstring)
    : Agent Completion := fun w =>
  let r := executeTask rt description gen w in
  if savedMessages w r.2 then (r.1, (onChatMessage reply now r.2).2) else r.


(** ** The memory line of the system prompt *)

(** [parts.join(sep)] *)
Fixpoint join (sep : jsstring) (parts : list jsstring) : jsstring :=
  match parts with
  | [] => []
  | p :: rest =>
      match rest with
      | [] => p
      | _ :: _ => p ++ sep ++ join sep rest
      end
  end.

(** Whether the conversion of a preference value to a string throws a
    [TypeError]: the state holds no function, so a mapping with a key
    ["toString"] of its own has no callable [toString] and its [valueOf]
    returns the mapping itself; a list is joined from the strings of its
    elements. *)
Fixpoint unprintable (v : pval) : bool :=
  match v with
  | PMap m => bool_decide (is_Some (m !! lit "toString"))
  | PList l => existsb unprintable l
  | _ => false
  end.

(** All the results when none is missing, as [Array.prototype.map] and
    [join] go through every element. *)
Fixpoint allSome {A} (l : list (option A)) : option (list A) :=
  match l with
  | [] => Some []
  | o :: l' =>
      match o, allSome l' with
      | Some x, Some xs => Some (x :: xs)
      | _, _ => None
      end
  end.

Section Prompt.

(** [String(n)] for a number is left open. *)
Context (numberToString : Z → jsstring).

(** [String(v)], [None] when it throws; inside [join], [null] gives the
    empty string. *)
Fixpoint toStringValue (v : pval) : option jsstring :=
  match v with
  | PNull => Some (lit "null")
  | PBool b => Some (if b then lit "true" else lit "false")
  | PNum n => Some (numberToString n)
  | PStr s => Some s
  | PList l =>
      join [44] <$> allSome (map (fun x => match x with
                                           | PNull => Some []
                                           | _ => toStringValue x
                                           end) l)
  | PMap m =>
      if bool_decide (is_Some (m !! lit "toString")) then None
      else Some (lit "[object Object]")
  end.

Definition elementString (x : pval) : option jsstring :=
  match x with
  | PNull => Some []
  | _ => toStringValue x
  end.

(** One [k=v] part of [summarizePrefs]: an array is joined with a comma and a
    space, any other object is shown as [[…]] without a conversion, the rest
    goes through [String]. *)
Definition prefPart (e : jsstring * pval) : option jsstring :=
  match e.2 with
  | PList l =>
      (fun ss => e.1 ++ 61 :: join [44; 32] ss) <$> allSome (map elementString l)
  | PMap _ => Some (e.1 ++ 61 :: [91; 8230; 93])
  | v => (fun s => e.1 ++ 61 :: s) <$> toStringValue v
  end.

(** [summarizePrefs(obj)] on [entries = Object.entries(obj)], [None] when it
    throws: [entries.map] builds the part of every entry before
    [slice(0, 8)] keeps the first eight. *)
Definition summarizePrefs (entries : list (jsstring * pval)) : option jsstring :=
  match entries with
  | [] => Some []
  | _ :: _ =>
      (fun ps => join [59; 32] (take 8 ps)) <$> allSome (map prefPart entries)
  end.

(** [memoryLine] for the entries of the preferences and the notes, [None]
    when [summarizePrefs] throws. *)
Definition memoryLine (entries : list (jsstring * pval)) (notes : option jsstring)
    : option jsstring :=
  p ← summarizePrefs entries;
  let hasNotes := negb (bool_decide (default [] notes = [])) in
  Some (if bool_decide (p = []) && negb hasNotes then []
        else
          lit "Apply saved user preferences when relevant. "
          ++ (if bool_decide (p = []) then [] else lit "Prefs: " ++ p ++ [46])
          ++ (if hasNotes then lit " Notes: " ++ default [] notes else [])).

End Prompt.

(** * Properties *)

Arguments itineraryIdFrom : simpl never.
Arguments looksLikeItineraryRequest : simpl never.
Arguments JSON_stringify : simpl never.
Arguments JSON_parse : simpl never.
Arguments lit : simpl never.

(** ** The fingerprint *)

Lemma charCodeAt_middle (pre t : jsstring) (c : N) :
  charCodeAt (pre ++ c :: t) (length pre) = c.
Proof.
  unfold charCodeAt. now rewrite list_lookup_middle.
Qed.

Lemma hashLoop_polynomial (t pre : jsstring) (h : N) :
  hashLoop (pre ++ t) (length t) (length pre) h mod 2 ^ 32
  = (h * 31 ^ N.of_nat (length t) + polynomial t) mod 2 ^ 32.
Proof.
  revert pre h. induction t as [|c t IH]; intros pre h.
  - simpl. f_equal. lia.
  - cbn [length hashLoop polynomial]. rewrite charCodeAt_middle.
    replace (pre ++ c :: t) with ((pre ++ [c]) ++ t) by now rewrite <- app_assoc.
    replace (S (length pre)) with (length (pre ++ [c]))
      by (rewrite length_app; simpl; lia).
    rewrite IH. unfold toUint32.
    rewrite <- N.Div0.add_mod_idemp_l, N.Div0.mul_mod_idemp_l, N.Div0.add_mod_idemp_l.
    f_equal. rewrite Nat2N.inj_succ, N.pow_succ_r'. lia.
Qed.

Lemma hashLoop_range (t : jsstring) (n i : nat) (h : N) :
  h < 2 ^ 32 → hashLoop t n i h < 2 ^ 32.
Proof.
  revert i h. induction n as [|n IH]; intros i h Hh; simpl; [done|].
  apply IH. unfold toUint32. now apply N.mod_upper_bound.
Qed.

Lemma hash_polynomial (t : jsstring) :
  hashLoop t (length t) 0 0 = polynomial t mod 2 ^ 32.
Proof.
  rewrite <- (N.mod_small (hashLoop t (length t) 0 0) (2 ^ 32))
    by (apply hashLoop_range; lia).
  pose proof (hashLoop_polynomial t [] 0) as H. simpl in H. rewrite H.
  f_equal.
Qed.

Lemma itineraryIdFrom_prefix (t : jsstring) :
  ∃ x, itineraryIdFrom t = 105 :: 116 :: 110 :: 45 :: x.
Proof. eexists. unfold itineraryIdFrom. reflexivity. Qed.

Lemma itineraryIdFrom_not_inherited (t : jsstring) :
  itineraryIdFrom t ∉ objectPrototypeKeys.
Proof.
  destruct (itineraryIdFrom_prefix t) as [x ->]. intros H.
  unfold objectPrototypeKeys in H.
  repeat (apply elem_of_cons in H as [H|H]; [vm_compute in H; discriminate|]).
  now apply elem_of_nil in H.
Qed.

Lemma offered_itineraryIdFrom (m : gmap jsstring bool) (t : jsstring) :
  offered m (itineraryIdFrom t) = default false (m !! itineraryIdFrom t).
Proof.
  unfold offered. destruct (m !! itineraryIdFrom t); [done|].
  rewrite bool_decide_eq_false_2; [done|]. apply itineraryIdFrom_not_inherited.
Qed.

Lemma classifier_rejects_empty : looksLikeItineraryRequest [] = false.
Proof. reflexivity. Qed.

Lemma accepted_not_empty (t : jsstring) :
  looksLikeItineraryRequest t = true → t ≠ [].
Proof. intros H ->. now rewrite classifier_rejects_empty in H. Qed.

(** ** Scheduling from [wrappedOnFinish] *)

Ltac agent_unfold :=
  unfold mbind, Agent_bind, mret, Agent_ret, getState, getMessages, setState,
    schedule, saveMessages, generateText in *.

Lemma wrappedOnFinish_rejected (t : jsstring) final now (w : World) :
  looksLikeItineraryRequest t = false → wrappedOnFinish t final now w = (tt, w).
Proof.
  intros H. unfold wrappedOnFinish. rewrite H.
  now rewrite orb_true_r.
Qed.

Lemma wrappedOnFinish_accepted (t : jsstring) final now (w : World) :
  looksLikeItineraryRequest t = true →
  wrappedOnFinish t final now w =
    if default false (marker w (itineraryIdFrom t)) then (tt, w)
    else
      let s' := recorded (itineraryIdFrom t) final now (default emptyState (state w)) in
      (tt, {| state := Some s'; messages := messages w;
              schedules := schedules w ++ [firstTask (itineraryIdFrom t)];
              trace := trace w ++ [EvSetState s'; EvSchedule (firstTask (itineraryIdFrom t))] |}).
Proof.
  intros H. unfold wrappedOnFinish. rewrite H.
  rewrite bool_decide_eq_false_2 by now apply accepted_not_empty.
  cbn [orb negb]. agent_unfold. unfold marker, recorded, firstTask.
  destruct (state w) as [s|]; simpl.
  - destruct (altOfferedFor s) as [m|] eqn:Hm; simpl.
    + rewrite offered_itineraryIdFrom.
      destruct (m !! itineraryIdFrom t) as [[]|]; simpl; try done;
        now rewrite <- app_assoc.
    + now rewrite <- app_assoc.
  - now rewrite <- app_assoc.
Qed.

Lemma marker_recorded (f g : jsstring) final now s ms ts tr :
  marker {| state := Some (recorded f final now s); messages := ms;
            schedules := ts; trace := tr |} g
  = if decide (f = g) then Some false else default ∅ (altOfferedFor s) !! g.
Proof.
  unfold marker, recorded. cbn. apply lookup_insert.
Qed.

(** C9.  For the text "Create me a 3 day trip in Tokyo" the classifier
    answers true, and [wrappedOnFinish] on a durable object that has no
    record for its fingerprint, [itn-6f1a32b2], writes the marker [false]
    (scheduled) and the primary output as the last itinerary of that
    fingerprint, and enqueues exactly one task, with delay 15, for
    [executeTask].  The payload of the task is the text
    [{"kind":"altItinerary","itineraryId":"itn-6f1a32b2"}], written here
    with the code unit 34 for the quotation mark, and it parses to the object
    with that kind and that fingerprint. *)
Theorem C9_tokyo_scenario (finalText : option jsstring) (now : jsstring) (w : World) :
  let T := lit "Create me a 3 day trip in Tokyo" in
  let fp1 := itineraryIdFrom T in
  statusOf w fp1 = NONE →
  let w' := (wrappedOnFinish T finalText now w).2 in
  looksLikeItineraryRequest T = true
  ∧ fp1 = lit "itn-6f1a32b2"
  ∧ statusOf w' fp1 = SCHEDULED
  ∧ baseFor w' fp1
    = Some {| itn_id := fp1; itn_text := default [] finalText; itn_createdAt := now |}
  ∧ (∃ t, schedules w' = schedules w ++ [t]
        ∧ delay t = 15 ∧ callback t = "executeTask"%string
        ∧ payload t
          = lit "{" ++ [34] ++ lit "kind" ++ [34] ++ lit ":"
            ++ [34] ++ lit "altItinerary" ++ [34] ++ lit ","
            ++ [34] ++ lit "itineraryId" ++ [34] ++ lit ":"
            ++ [34] ++ lit "itn-6f1a32b2" ++ [34] ++ lit "}"
        ∧ JSON_parse (payload t)
          = Some (JObj [(lit "kind", JStr (lit "altItinerary"));
                        (lit "itineraryId", JStr (lit "itn-6f1a32b2"))]))
  ∧ count isSchedule (trace w') = S (count isSchedule (trace w))
  ∧ messages w' = messages w.
Proof.
  intros T fp1 Hnone w'.
  assert (HT : looksLikeItineraryRequest T = true) by (vm_compute; reflexivity).
  assert (Hfp : fp1 = lit "itn-6f1a32b2") by (vm_compute; reflexivity).
  assert (Hm : marker w fp1 = None).
  { unfold statusOf in Hnone. destruct (marker w fp1) as [[]|]; done. }
  subst w'. rewrite (wrappedOnFinish_accepted T finalText now w HT).
  fold fp1. rewrite Hm. simpl.
  split; [done|]. split; [done|]. split; [|split; [|split; [|split]]].
  - unfold statusOf. rewrite marker_recorded.
    now destruct (decide (fp1 = fp1)).
  - unfold baseFor. simpl. now destruct (decide (fp1 = fp1)).
  - exists (firstTask fp1). split; [reflexivity|].
    split; [reflexivity|]. split; [reflexivity|].
    split; vm_compute; reflexivity.
  - unfold count. rewrite !List.filter_app, !length_app. simpl. lia.
  - reflexivity.
Qed.

(** A durable object to apply [C9_tokyo_scenario] to: the initial one. *)
Lemma C9_tokyo_scenario_witness :
  statusOf initialWorld (itineraryIdFrom (lit "Create me a 3 day trip in Tokyo")) = NONE
  ∧ statusOf (wrappedOnFinish (lit "Create me a 3 day trip in Tokyo")
                (Some (lit "Day 1: Asakusa")) (lit "2025-01-01T00:00:00.000Z")
                initialWorld).2
             (itineraryIdFrom (lit "Create me a 3 day trip in Tokyo")) = SCHEDULED.
Proof.
  split; [reflexivity|].
  apply (C9_tokyo_scenario (Some (lit "Day 1: Asakusa"))
           (lit "2025-01-01T00:00:00.000Z") initialWorld).
  reflexivity.
Defined.

(** The second of two calls with the same accepted text starts from the
    marker [false] that the first one wrote, which does not stop it. *)
Lemma wrappedOnFinish_twice (t : jsstring) f1 n1 f2 n2 (w : World) :
  looksLikeItineraryRequest t = true →
  marker w (itineraryIdFrom t) ≠ Some true →
  let w1 := (wrappedOnFinish t f1 n1 w).2 in
  let w2 := (wrappedOnFinish t f2 n2 w1).2 in
  (∀ f, marker w2 f = marker w1 f)
  ∧ marker w2 (itineraryIdFrom t) = Some false
  ∧ schedules w1 = schedules w ++ [firstTask (itineraryIdFrom t)]
  ∧ schedules w2
    = schedules w ++ [firstTask (itineraryIdFrom t); firstTask (itineraryIdFrom t)].
Proof.
  intros Ht Hm w1 w2. subst w2 w1.
  rewrite (wrappedOnFinish_accepted t f1 n1 w Ht).
  destruct (marker w (itineraryIdFrom t)) as [[]|] eqn:E; [done| |]; simpl;
    rewrite (wrappedOnFinish_accepted t f2 n2 _ Ht);
    rewrite marker_recorded; (destruct (decide (itineraryIdFrom t = itineraryIdFrom t)); [|done]);
    simpl; rewrite marker_recorded;
    (destruct (decide (itineraryIdFrom t = itineraryIdFrom t)); [|done]);
    (repeat split; [|now rewrite <- app_assoc]);
    intros f; rewrite !marker_recorded; simpl;
    (destruct (decide (itineraryIdFrom t = f)); [done|]);
    now rewrite lookup_insert_ne.
Qed.

(** The guard of [wrappedOnFinish] on every durable object.  For a text
    that the classifier accepts, the call does nothing exactly when the
    marker of its fingerprint is already [true] (the alternative was
    offered).  With any other marker, the [false] of a record that is still
    scheduled included, it writes the last itinerary and the marker anew
    and enqueues a task: two calls with the same text leave one marker for
    the fingerprint and no marker that the first call had not left, the last
    itinerary of the second call, and two tasks in the table. *)
Lemma wrappedOnFinish_until_offered (t : jsstring) f1 n1 f2 n2 (w : World) :
  looksLikeItineraryRequest t = true →
  let fp := itineraryIdFrom t in
  let w1 := (wrappedOnFinish t f1 n1 w).2 in
  let w2 := (wrappedOnFinish t f2 n2 w1).2 in
  match marker w fp with
  | Some true => w1 = w ∧ w2 = w
  | _ =>
      marker w1 fp = Some false
      ∧ marker w2 fp = Some false
      ∧ (∀ f, marker w2 f = marker w1 f)
      ∧ baseFor w1 fp
        = Some {| itn_id := fp; itn_text := default [] f1; itn_createdAt := n1 |}
      ∧ baseFor w2 fp
        = Some {| itn_id := fp; itn_text := default [] f2; itn_createdAt := n2 |}
      ∧ schedules w1 = schedules w ++ [firstTask fp]
      ∧ schedules w2 = schedules w ++ [firstTask fp; firstTask fp]
  end.
Proof.
  intros Ht fp w1 w2.
  assert (Hbase : ∀ f n (v : World),
            marker v fp ≠ Some true →
            baseFor (wrappedOnFinish t f n v).2 fp
            = Some {| itn_id := fp; itn_text := default [] f; itn_createdAt := n |}).
  { intros f n v Hv. rewrite (wrappedOnFinish_accepted t f n v Ht). fold fp.
    destruct (marker v fp) as [[]|]; [done| |]; unfold baseFor; simpl;
      now destruct (decide (fp = fp)). }
  destruct (marker w fp) as [[]|] eqn:E.
  - subst w2 w1. rewrite (wrappedOnFinish_accepted t f1 n1 w Ht).
    fold fp. rewrite E. simpl.
    rewrite (wrappedOnFinish_accepted t f2 n2 w Ht). fold fp. now rewrite E.
  - destruct (wrappedOnFinish_twice t f1 n1 f2 n2 w Ht) as (H1 & H2 & H3 & H4).
    { fold fp. now rewrite E. }
    fold fp w1 in H1, H2, H3, H4. fold w2 in H1, H2, H4.
    assert (Hw1 : marker w1 fp = Some false) by now rewrite <- H1.
    split; [done|]. split; [done|]. split; [done|].
    split; [apply Hbase; now rewrite E|].
    split; [apply Hbase; now rewrite Hw1|]. done.
  - destruct (wrappedOnFinish_twice t f1 n1 f2 n2 w Ht) as (H1 & H2 & H3 & H4).
    { fold fp. now rewrite E. }
    fold fp w1 in H1, H2, H3, H4. fold w2 in H1, H2, H4.
    assert (Hw1 : marker w1 fp = Some false) by now rewrite <- H1.
    split; [done|]. split; [done|]. split; [done|].
    split; [apply Hbase; now rewrite E|].
    split; [apply Hbase; now rewrite Hw1|]. done.
Qed.

Lemma wrappedOnFinish_until_offered_example :
  looksLikeItineraryRequest (lit "weekend trip") = true
  ∧ marker (wrappedOnFinish (lit "weekend trip") None []
              (wrappedOnFinish (lit "weekend trip") None [] initialWorld).2).2
           (itineraryIdFrom (lit "weekend trip")) = Some false.
Proof.
  split; [reflexivity|].
  apply (wrappedOnFinish_until_offered (lit "weekend trip") None [] None []
           initialWorld).
  reflexivity.
Defined.

(** C1.  The code on two finish callbacks for "Create me a 3 day trip in
    Tokyo" from the initial durable object, with no run of the task in
    between.  The claim, the comment on the guard ("only once per
    itineraryId") and the README ("schedules a single job") have the second
    call do nothing, since the first one left a record for the fingerprint.
    The code does not: the guard tests the stored marker for truth, the
    first call stored [false], and so the second call writes the last
    itinerary again, with its own time, and enqueues a second task with the
    same payload.  Only the marker is kept to one entry. *)
Theorem C1_second_call_enqueues_again :
  let T := lit "Create me a 3 day trip in Tokyo" in
  let fp := itineraryIdFrom T in
  let w1 := (wrappedOnFinish T (Some (lit "Day 1")) (lit "t1") initialWorld).2 in
  let w2 := (wrappedOnFinish T (Some (lit "Day 1")) (lit "t2") w1).2 in
  looksLikeItineraryRequest T = true
  ∧ statusOf w1 fp = SCHEDULED
  ∧ length (schedules w1) = 1%nat
  ∧ length (schedules w2) = 2%nat
  ∧ w2 ≠ w1
  ∧ schedules w1 = [firstTask fp]
  ∧ schedules w2 = [firstTask fp; firstTask fp]
  ∧ delay (firstTask fp) = 15
  ∧ baseFor w1 fp
    = Some {| itn_id := fp; itn_text := lit "Day 1"; itn_createdAt := lit "t1" |}
  ∧ baseFor w2 fp
    = Some {| itn_id := fp; itn_text := lit "Day 1"; itn_createdAt := lit "t2" |}
  ∧ statusOf w2 fp = SCHEDULED
  ∧ altOfferedFor (default emptyState (state w2)) = Some {[ fp := false ]}.
Proof.
  vm_compute. repeat split; discriminate.
Qed.

(** ** What [JSON.parse] reads back from [JSON.stringify] *)

Ltac bool_cases :=
  repeat match goal with
    | |- context [N.leb ?a ?b] => destruct (N.leb_spec a b)
    | |- context [N.ltb ?a ?b] => destruct (N.ltb_spec a b)
    | |- context [N.eqb ?a ?b] => destruct (N.eqb_spec a b)
    end.

Lemma hexVal_hexDigit (d : N) : d < 16 → hexVal (hexDigit d) = Some d.
Proof.
  intros Hd. unfold hexVal, hexDigit, isDigit.
  bool_cases; simpl; try lia; f_equal; lia.
Qed.

Lemma hex4_escapeU (c : N) :
  c < 65536 →
  hex4 (hexDigit (c / 4096 mod 16)) (hexDigit (c / 256 mod 16))
       (hexDigit (c / 16 mod 16)) (hexDigit (c mod 16)) = Some c.
Proof.
  intros Hc. unfold hex4.
  rewrite !hexVal_hexDigit by (apply N.mod_upper_bound; lia). simpl. f_equal.
  change 4096 with (16 * (16 * 16)). change 256 with (16 * 16).
  rewrite <- !N.Div0.div_div.
  pose proof (N.div_mod c 16 ltac:(lia)) as H0.
  pose proof (N.div_mod (c / 16) 16 ltac:(lia)) as H1.
  pose proof (N.div_mod (c / 16 / 16) 16 ltac:(lia)) as H2.
  assert (H3 : c / 16 / 16 / 16 < 16).
  { rewrite !N.Div0.div_div. apply N.Div0.div_lt_upper_bound. lia. }
  rewrite (N.mod_small (c / 16 / 16 / 16) 16 H3). lia.
Qed.

Lemma parseChars_escapeU (c : N) (rest : jsstring) :
  c < 65536 → parseChars (escapeU c ++ rest) = consUnit c (parseChars rest).
Proof.
  intros Hc. unfold escapeU. cbn [app parseChars].
  change (92 =? 34) with false. change (92 =? 92) with true.
  change (117 =? 117) with true. cbv iota. now rewrite hex4_escapeU.
Qed.

Lemma parseChars_quoteUnit (c : N) (rest : jsstring) :
  parseChars (quoteUnit c ++ rest) = consUnit c (parseChars rest).
Proof.
  unfold quoteUnit, isHighSurrogate, isLowSurrogate.
  destruct (N.eqb_spec c 34) as [->|]; [reflexivity|].
  destruct (N.eqb_spec c 92) as [->|]; [reflexivity|].
  destruct (N.eqb_spec c 8) as [->|]; [reflexivity|].
  destruct (N.eqb_spec c 9) as [->|]; [reflexivity|].
  destruct (N.eqb_spec c 10) as [->|]; [reflexivity|].
  destruct (N.eqb_spec c 12) as [->|]; [reflexivity|].
  destruct (N.eqb_spec c 13) as [->|]; [reflexivity|].
  destruct (N.ltb_spec c 32); [apply parseChars_escapeU; lia|].
  destruct (N.leb_spec 55296 c), (N.leb_spec c 56319), (N.leb_spec 56320 c),
    (N.leb_spec c 57343); cbn [andb orb];
    try (apply parseChars_escapeU; lia);
    cbn [app parseChars]; bool_cases; try lia; reflexivity.
Qed.

Lemma parseChars_pair (c d : N) (rest : jsstring) :
  isHighSurrogate c && isLowSurrogate d = true →
  parseChars (c :: d :: rest) = consUnit c (consUnit d (parseChars rest)).
Proof.
  unfold isHighSurrogate, isLowSurrogate. intros H.
  apply andb_prop in H as [[H1 H2]%andb_prop [H3 H4]%andb_prop].
  apply N.leb_le in H1, H2, H3, H4.
  cbn [parseChars]. bool_cases; try lia; reflexivity.
Qed.

Lemma quoteUnits_cons (c d : N) (s : jsstring) :
  quoteUnits (c :: d :: s)
  = if isHighSurrogate c && isLowSurrogate d
    then c :: d :: quoteUnits s
    else quoteUnit c ++ quoteUnits (d :: s).
Proof. reflexivity. Qed.

Lemma parseChars_quoteUnits_bounded (n : nat) (s rest : jsstring) :
  (length s ≤ n)%nat →
  parseChars (quoteUnits s ++ 34 :: rest) = Some (s, rest).
Proof.
  revert s. induction n as [|n IH]; intros s Hn.
  - destruct s; [reflexivity|simpl in Hn; lia].
  - destruct s as [|c [|d s]]; [reflexivity| |].
    + cbn [quoteUnits]. rewrite parseChars_quoteUnit. reflexivity.
    + rewrite quoteUnits_cons.
      destruct (isHighSurrogate c && isLowSurrogate d) eqn:E.
      * rewrite <- !app_comm_cons. rewrite parseChars_pair by done.
        rewrite IH by (simpl in *; lia). reflexivity.
      * rewrite <- app_assoc, parseChars_quoteUnit.
        rewrite IH by (simpl in *; lia). reflexivity.
Qed.

(** Reading a quoted string gives the string back. *)
Lemma parseChars_quoteUnits (s rest : jsstring) :
  parseChars (quoteUnits s ++ 34 :: rest) = Some (s, rest).
Proof. now apply (parseChars_quoteUnits_bounded (length s)). Qed.

Ltac parse_step :=
  cbn [skipWs isJsonSpace N.eqb Pos.eqb orb andb app isDigit
       N.leb N.compare Pos.compare Pos.compare_cont].

Lemma parseValue_string (n : nat) (s rest : jsstring) :
  parseValue (S n) (quoteJSONString s ++ rest) = Some (JStr s, rest).
Proof.
  unfold quoteJSONString. rewrite <- app_comm_cons, <- app_assoc.
  cbn [parseValue]. parse_step. now rewrite parseChars_quoteUnits.
Qed.

Lemma parseValue_one (n : nat) (c : N) (rest : jsstring) :
  isDigit c = false → c ≠ 46 → c ≠ 101 → c ≠ 69 →
  parseValue (S n) (49 :: c :: rest) = Some (JNum 1, c :: rest).
Proof.
  intros Hd H1 H2 H3. cbn [parseValue]. parse_step.
  unfold lexNumber. parse_step. cbn [spanDigits]. parse_step. rewrite Hd.
  simpl.
  destruct (N.eqb_spec c 46); [done|].
  destruct (N.eqb_spec c 101); [done|]. destruct (N.eqb_spec c 69); [done|].
  simpl. reflexivity.
Qed.

(** One member with a key [k], read by [parseMembers] when the value parses
    to [v] and a comma or a closing brace follows. *)
Lemma parseMembers_member (n : nat) acc (k r2 : jsstring) v (c3 : N) r4 :
  parseValue n r2 = Some (v, c3 :: r4) →
  isJsonSpace c3 = false →
  parseMembers (S n) acc (quoteJSONString k ++ 58 :: r2)
  = if c3 =? 44 then parseMembers n (objSet k v acc) r4
    else if c3 =? 125 then Some (JObj (objSet k v acc), r4)
    else None.
Proof.
  intros Hv Hc. unfold quoteJSONString. rewrite <- app_comm_cons, <- app_assoc.
  cbn [parseMembers]. parse_step. rewrite parseChars_quoteUnits.
  parse_step. rewrite Hv. cbn [skipWs]. rewrite Hc. reflexivity.
Qed.

Lemma parseValue_object (n : nat) (k rest : jsstring) :
  parseValue (S n) (123 :: quoteJSONString k ++ rest)
  = parseMembers n [] (quoteJSONString k ++ rest).
Proof.
  unfold quoteJSONString. rewrite <- !app_comm_cons.
  cbn [parseValue]. parse_step. reflexivity.
Qed.

Ltac flatten_app := repeat (rewrite <- app_assoc || rewrite <- app_comm_cons).

Lemma JSON_stringify_altPayload_none (f : jsstring) :
  JSON_stringify (altPayload f None)
  = 123 :: quoteJSONString (lit "kind") ++ 58 :: quoteJSONString (lit "altItinerary")
      ++ 44 :: quoteJSONString (lit "itineraryId") ++ 58 :: quoteJSONString f ++ [125].
Proof.
  unfold altPayload, JSON_stringify. cbn [app]. now flatten_app.
Qed.

Lemma JSON_stringify_altPayload_retry (f : jsstring) :
  JSON_stringify (altPayload f (Some (JNum 1)))
  = 123 :: quoteJSONString (lit "kind") ++ 58 :: quoteJSONString (lit "altItinerary")
      ++ 44 :: quoteJSONString (lit "itineraryId") ++ 58 :: quoteJSONString f
      ++ 44 :: quoteJSONString (lit "retry") ++ 58 :: [49; 125].
Proof.
  unfold altPayload, JSON_stringify. cbn [app]. now flatten_app.
Qed.

Lemma fuel_enough (s : jsstring) :
  (3 ≤ length s)%nat → ∃ n, (2 * length s + 2 = 5 + n)%nat.
Proof. intros H. exists (2 * length s - 3)%nat. lia. Qed.

(** The payload that [wrappedOnFinish] writes parses back to the object it
    was written from, whatever the fingerprint. *)
Lemma JSON_parse_altPayload_none (f : jsstring) :
  JSON_parse (JSON_stringify (altPayload f None)) = Some (altPayload f None).
Proof.
  unfold JSON_parse.
  destruct (fuel_enough (JSON_stringify (altPayload f None))) as [n ->].
  { rewrite JSON_stringify_altPayload_none. simpl. lia. }
  rewrite JSON_stringify_altPayload_none. cbn [Nat.add].
  rewrite parseValue_object.
  rewrite (parseMembers_member _ _ _ _ (JStr (lit "altItinerary")) 44
             (quoteJSONString (lit "itineraryId") ++ 58 :: quoteJSONString f ++ [125]));
    [|apply parseValue_string|reflexivity].
  change (44 =? 44) with true. cbv iota.
  rewrite (parseMembers_member _ _ _ _ (JStr f) 125 []);
    [|apply (parseValue_string _ f [125])|reflexivity].
  reflexivity.
Qed.

(** So does the payload of the retry. *)
Lemma JSON_parse_altPayload_retry (f : jsstring) :
  JSON_parse (JSON_stringify (altPayload f (Some (JNum 1))))
  = Some (altPayload f (Some (JNum 1))).
Proof.
  unfold JSON_parse.
  destruct (fuel_enough (JSON_stringify (altPayload f (Some (JNum 1))))) as [n ->].
  { rewrite JSON_stringify_altPayload_retry. simpl. lia. }
  rewrite JSON_stringify_altPayload_retry. cbn [Nat.add].
  rewrite parseValue_object.
  rewrite (parseMembers_member _ _ _ _ (JStr (lit "altItinerary")) 44
             (quoteJSONString (lit "itineraryId") ++ 58 :: quoteJSONString f
              ++ 44 :: quoteJSONString (lit "retry") ++ 58 :: [49; 125]));
    [|apply parseValue_string|reflexivity].
  change (44 =? 44) with true. cbv iota.
  rewrite (parseMembers_member _ _ _ _ (JStr f) 44
             (quoteJSONString (lit "retry") ++ 58 :: [49; 125]));
    [|apply (parseValue_string _ f)|reflexivity].
  change (44 =? 44) with true. cbv iota.
  rewrite (parseMembers_member _ _ _ _ (JNum 1) 125 []);
    [|now apply parseValue_one|reflexivity].
  reflexivity.
Qed.

(** ** The runs of [executeTask] *)

Lemma alternativeFor_blocked rt (f : jsstring) retry gen (w : World) :
  ready w f = None → alternativeFor rt f retry gen w = (Returned, w).
Proof.
  unfold ready, alternativeFor. agent_unfold. simpl.
  destruct (offered _ f); [done|].
  destruct (lastItinerary _) as [b|]; [|done].
  destruct (decide (itn_id b = f)) as [E|E]; [done|].
  now rewrite bool_decide_eq_false_2.
Qed.

Lemma alternativeFor_posts rt (f : jsstring) retry gen (w : World) b alt :
  ready w f = Some b → finalAltOf gen = Some alt →
  alternativeFor rt f retry gen w =
    let s := default emptyState (state w) in
    (Returned,
     {| state := Some (completedState f s);
        messages := messages w ++ [altMessage f alt];
        schedules := schedules w;
        trace := trace w ++ [generateEvent s b; EvSetState (completedState f s);
                             EvSaveMessages (messages w ++ [altMessage f alt])] |}).
Proof.
  unfold ready, alternativeFor. agent_unfold. simpl.
  destruct (offered _ f); [done|].
  destruct (lastItinerary _) as [b'|] eqn:Hb; [|done].
  destruct (decide (itn_id b' = f)) as [E|E]; [|done].
  intros [= ->] Hgen. rewrite bool_decide_eq_true_2 by done. simpl.
  rewrite Hgen. unfold completedState, generateEvent. rewrite Hb. simpl.
  now rewrite <- !app_assoc.
Qed.

(** A retry hint on which the sum throws gets no retry. *)
Lemma nextRetry_throws rt retry :
  retryThrows retry = true → nextRetry rt retry = None.
Proof.
  destruct retry as [[]|]; simpl; try done; now intros ->.
Qed.

Lemma alternativeFor_fails rt (f : jsstring) retry gen (w : World) b :
  ready w f = Some b → finalAltOf gen = None →
  alternativeFor rt f retry gen w =
    (if retryThrows retry then Threw else Returned,
     {| state := state w;
        messages := messages w;
        schedules := schedules w ++ retryTasks rt f retry;
        trace := trace w ++ generateEvent (default emptyState (state w)) b
                 :: (EvSchedule <$> retryTasks rt f retry) |}).
Proof.
  unfold ready, alternativeFor, retryTasks. agent_unfold. simpl.
  destruct (offered _ f); [done|].
  destruct (lastItinerary _) as [b'|] eqn:Hb; [|done].
  destruct (decide (itn_id b' = f)) as [E|E]; [|done].
  intros [= ->] Hgen. rewrite bool_decide_eq_true_2 by done. simpl.
  rewrite Hgen. unfold generateEvent, retryTask.
  destruct (retryThrows retry) eqn:Hthrows.
  - rewrite (nextRetry_throws rt retry Hthrows). simpl.
    now rewrite <- ?app_assoc, ?app_nil_r.
  - destruct (nextRetry rt retry); simpl; rewrite <- ?app_assoc, ?app_nil_r; done.
Qed.

(** A description that targets [f] sends [executeTask] into the branch of
    the alternative for [f]. *)
Lemma executeTask_targets rt (d f : jsstring) gen (w : World) :
  targets rt d f = true →
  executeTask rt d gen w = alternativeFor rt f (retryHint d) gen w.
Proof.
  unfold targets, executeTask, retryHint.
  destruct (JSON_parse d) as [v|]; [|done]. simpl.
  intros H. apply andb_prop in H as [[[H1 H2]%andb_prop H3]%andb_prop H4].
  apply negb_true_iff in H1. rewrite H1, H2, H3. simpl.
  destruct (getProp v "itineraryId") as [[]|]; try done.
  now apply bool_decide_eq_true in H4 as ->.
Qed.

(** Any other description that does not parse to [null] gets the behaviour
    of the starter: a user message that names the task. *)
Lemma executeTask_default rt (d : jsstring) gen (w : World) :
  fallsToDefault rt d = true →
  executeTask rt d gen w =
    (Returned,
     {| state := state w;
        messages := messages w ++ [defaultMessage d];
        schedules := schedules w;
        trace := trace w ++ [EvSaveMessages (messages w ++ [defaultMessage d])] |}).
Proof.
  unfold fallsToDefault, executeTask. agent_unfold.
  destruct (JSON_parse d) as [v|]; simpl; [|done].
  intros [H1 H2]%andb_prop. apply negb_true_iff in H1, H2.
  now rewrite H1, H2.
Qed.

(** The three ways of a run of [executeTask]: the behaviour of the starter,
    the alternative for some itinerary, or nothing at all (the payload
    [null], on which it throws, and an [itineraryId] that is not a string). *)
Lemma executeTask_cases rt (d : jsstring) gen (w : World) :
  fallsToDefault rt d = true
  ∨ (∃ f, targets rt d f = true)
  ∨ (∃ c, executeTask rt d gen w = (c, w)).
Proof.
  unfold fallsToDefault, targets, executeTask.
  destruct (JSON_parse d) as [v|]; simpl; [|now left].
  destruct (isNull v); simpl; [right; right; now eexists|].
  destruct (isString "altItinerary" (getProp v "kind")); simpl; [|now left].
  destruct (truthy rt (getProp v "itineraryId")) eqn:Ht; simpl; [|now left].
  right. destruct (getProp v "itineraryId") as [i|]; [|right; now eexists].
  destruct i; try (right; now eexists);
    try (right; destruct (conversionThrows _); now eexists).
  left. eexists. now apply bool_decide_eq_true_2.
Qed.

Lemma targets_altPayload rt (f : jsstring) retry :
  f ≠ [] →
  JSON_parse (JSON_stringify (altPayload f retry)) = Some (altPayload f retry) →
  targets rt (JSON_stringify (altPayload f retry)) f = true
  ∧ retryHint (JSON_stringify (altPayload f retry)) = retry.
Proof.
  intros Hf Hp. unfold targets, retryHint. rewrite Hp. simpl.
  rewrite bool_decide_eq_false_2 by done.
  rewrite bool_decide_eq_true_2 by done. split; [done|].
  destruct retry; reflexivity.
Qed.

(** ** Payloads that are not alternatives *)


(** ** At most one alternative *)

Lemma ready_completed (f : jsstring) s ms ts tr :
  ready {| state := Some (completedState f s); messages := ms;
           schedules := ts; trace := tr |} f = None.
Proof.
  unfold ready, completedState, offered. simpl.
  now rewrite lookup_insert_eq.
Qed.

Lemma invokeAll_blocked rt (f : jsstring) runs (w : World) :
  ready w f = None →
  (∀ r, r ∈ runs → targets rt r.1 f = true) →
  invokeAll rt runs w = w.
Proof.
  intros Hr. induction runs as [|r runs IH]; intros Hall; [done|].
  unfold invokeAll. simpl.
  rewrite (executeTask_targets rt r.1 f) by (apply Hall; left).
  rewrite alternativeFor_blocked by done. simpl.
  apply IH. intros r' Hr'. apply Hall. now right.
Qed.

(** C2.  Let a run of [executeTask] for the fingerprint [f] get a text out
    of the generator.  It persists the marker [true] for [f] and only then
    saves the alternative as a message; and however many runs for [f]
    follow, with whatever retry hints and generator outcomes, they change
    nothing: over all these runs exactly one message was appended. *)
Theorem C2_at_most_once rt (f d0 : jsstring) gen0 alt b
    (runs : list (jsstring * GenOutcome)) (w : World) :
  targets rt d0 f = true →
  ready w f = Some b →
  finalAltOf gen0 = Some alt →
  (∀ r, r ∈ runs → targets rt r.1 f = true) →
  let s := default emptyState (state w) in
  let w1 := (executeTask rt d0 gen0 w).2 in
  let wn := invokeAll rt runs w1 in
  trace w1 = trace w ++ [generateEvent s b; EvSetState (completedState f s);
                         EvSaveMessages (messages w ++ [altMessage f alt])]
  ∧ marker w1 f = Some true
  ∧ wn = w1
  ∧ messages wn = messages w ++ [altMessage f alt]
  ∧ count isSaveMessages (trace wn) = S (count isSaveMessages (trace w)).
Proof.
  intros Ht Hr Hg Hall s w1 wn. subst wn w1.
  rewrite (executeTask_targets rt d0 f gen0 w Ht).
  rewrite (alternativeFor_posts rt f _ gen0 w b alt Hr Hg). simpl.
  rewrite (invokeAll_blocked rt f runs) by (done || apply ready_completed).
  simpl. repeat split.
  - unfold marker. simpl. apply lookup_insert_eq.
  - unfold count. rewrite List.filter_app, length_app. simpl. lia.
Qed.

Lemma C2_at_most_once_witness :
  let T := lit "Create me a 3 day trip in Tokyo" in
  let f := itineraryIdFrom T in
  let w := (wrappedOnFinish T (Some (lit "Day 1: Asakusa")) (lit "t0") initialWorld).2 in
  let d := JSON_stringify (altPayload f None) in
  let d' := JSON_stringify (altPayload f (Some (JNum 1))) in
  let runs := [(d, GenThrows); (d', GenText (lit "Day 1: Ueno")); (d, GenText (lit "x"))] in
  messages (invokeAll plainRuntime runs
              (executeTask plainRuntime d (GenText (lit " Day 1: Shibuya ")) w).2)
  = [altMessage f (lit "Day 1: Shibuya")].
Proof.
  intros T f w d d' runs.
  apply (C2_at_most_once plainRuntime f d (GenText (lit " Day 1: Shibuya "))
           (lit "Day 1: Shibuya")
           {| itn_id := f; itn_text := lit "Day 1: Asakusa"; itn_createdAt := lit "t0" |}
           runs w).
  - vm_compute. reflexivity.
  - vm_compute. reflexivity.
  - vm_compute. reflexivity.
  - intros r Hr. unfold runs in Hr.
    repeat (apply elem_of_cons in Hr as [->|Hr]; [vm_compute; reflexivity|]).
    now apply elem_of_nil in Hr.
Defined.

(** ** Failed runs *)

Lemma trimStart_spaces (t : jsstring) :
  Forall (fun c => isSpace c = true) t → trimStart t = [].
Proof.
  induction 1 as [|c t Hc _ IH]; [done|]. simpl. now rewrite Hc.
Qed.

(** The generator fails when it throws and when its text is empty or white
    space only. *)
Lemma finalAltOf_blank (gen : GenOutcome) :
  gen = GenThrows ∨ (∃ t, gen = GenText t ∧ Forall (fun c => isSpace c = true) t) →
  finalAltOf gen = None.
Proof.
  intros [->|(t & -> & Ht)]; [done|]. unfold finalAltOf, trim.
  now rewrite (trimStart_spaces t Ht).
Qed.

(** C10.  When a run of [executeTask] for an alternative gets as far as the
    generator and the generator throws, or returns an empty or white-space
    text, the run writes nothing to the state: [altOfferedFor],
    [lastItinerary] and [profile] are as loaded, no [setState] is called and
    no message is saved.  All it does after the call of the generator is to
    enqueue at most one retry, with delay 10. *)
Theorem C10_failure_writes_no_state rt (d f : jsstring) gen b (w : World) :
  targets rt d f = true →
  ready w f = Some b →
  gen = GenThrows ∨ (∃ t, gen = GenText t ∧ Forall (fun c => isSpace c = true) t) →
  let w' := (executeTask rt d gen w).2 in
  state w' = state w
  ∧ messages w' = messages w
  ∧ count isSetState (trace w') = count isSetState (trace w)
  ∧ ∃ ts, (length ts ≤ 1)%nat
      ∧ Forall (fun t => delay t = 10 ∧ callback t = "executeTask"%string) ts
      ∧ schedules w' = schedules w ++ ts
      ∧ trace w' = trace w ++ generateEvent (default emptyState (state w)) b
                   :: (EvSchedule <$> ts).
Proof.
  intros Ht Hr Hg w'. subst w'.
  rewrite (executeTask_targets rt d f gen w Ht).
  rewrite (alternativeFor_fails rt f _ gen w b Hr (finalAltOf_blank gen Hg)).
  simpl. repeat split.
  - unfold count, retryTasks. rewrite List.filter_app, length_app.
    destruct (nextRetry rt (retryHint d)); simpl; lia.
  - exists (retryTasks rt f (retryHint d)). unfold retryTasks.
    destruct (nextRetry rt (retryHint d)); simpl; repeat split; auto.
Qed.

Lemma C10_failure_writes_no_state_witness :
  let T := lit "Create me a 3 day trip in Tokyo" in
  let f := itineraryIdFrom T in
  let w := (wrappedOnFinish T (Some (lit "Day 1: Asakusa")) (lit "t0") initialWorld).2 in
  let d := JSON_stringify (altPayload f None) in
  state (executeTask plainRuntime d (GenText (lit "  ")) w).2 = state w.
Proof.
  intros T f w d.
  apply (C10_failure_writes_no_state plainRuntime d f (GenText (lit "  "))
           {| itn_id := f; itn_text := lit "Day 1: Asakusa"; itn_createdAt := lit "t0" |} w).
  - vm_compute. reflexivity.
  - vm_compute. reflexivity.
  - right. exists (lit "  "). split; [reflexivity|].
    repeat constructor.
Defined.

(** ** Bounded retry *)

Lemma ready_frame (w : World) ms ts tr (f : jsstring) :
  ready {| state := state w; messages := ms; schedules := ts; trace := tr |} f
  = ready w f.
Proof. reflexivity. Qed.

Lemma fire_first_attempt rt (f : jsstring) b gen (w : World) :
  f ≠ [] → ready w f = Some b → schedules w = [firstTask f] →
  finalAltOf gen = None →
  fire rt gen w =
    (Some Returned,
     {| state := state w; messages := messages w;
        schedules := [retryTask f (JNum 1)];
        trace := trace w ++ [generateEvent (default emptyState (state w)) b;
                             EvSchedule (retryTask f (JNum 1))] |}).
Proof.
  intros Hf Hr Hs Hg. unfold fire. rewrite Hs.
  destruct (targets_altPayload rt f None Hf (JSON_parse_altPayload_none f))
    as [Ht Hh].
  cbn [payload firstTask].
  rewrite (executeTask_targets rt _ f gen _ Ht), Hh.
  now rewrite (alternativeFor_fails rt f None gen _ b).
Qed.

Lemma fire_second_attempt rt (f : jsstring) b gen (w : World) :
  f ≠ [] → ready w f = Some b → schedules w = [retryTask f (JNum 1)] →
  finalAltOf gen = None →
  fire rt gen w =
    (Some Returned,
     {| state := state w; messages := messages w; schedules := [];
        trace := trace w ++ [generateEvent (default emptyState (state w)) b] |}).
Proof.
  intros Hf Hr Hs Hg. unfold fire. rewrite Hs.
  destruct (targets_altPayload rt f (Some (JNum 1)) Hf (JSON_parse_altPayload_retry f))
    as [Ht Hh].
  cbn [payload retryTask].
  rewrite (executeTask_targets rt _ f gen _ Ht), Hh.
  now rewrite (alternativeFor_fails rt f (Some (JNum 1)) gen _ b).
Qed.

(** C3, as amended.  Let the task that [wrappedOnFinish] enqueued for the
    fingerprint [f] be the only one on the table, and let the generator fail
    in every run.  Then the scheduler makes exactly two runs: the first calls
    the generator and enqueues the retry with delay 10 and the count 1, the
    second calls the generator and enqueues nothing, and the table is empty.
    The state is never written: the marker of [f] is as it was, and nothing
    records that [f] was given up. *)
Theorem C3_two_attempts_then_silence rt (f : jsstring) b gen fuel (w : World) :
  f ≠ [] →
  ready w f = Some b →
  schedules w = [firstTask f] →
  (∀ i, finalAltOf (gen i) = None) →
  (2 ≤ fuel)%nat →
  let s := default emptyState (state w) in
  let w2 :=
    {| state := state w; messages := messages w; schedules := [];
       trace := trace w ++ [generateEvent s b; EvSchedule (retryTask f (JNum 1));
                            generateEvent s b] |} in
  runScheduler rt fuel gen 0 w = (2%nat, w2)
  ∧ delay (retryTask f (JNum 1)) = 10
  ∧ count isGenerate (trace w2) = (2 + count isGenerate (trace w))%nat
  ∧ statusOf w2 f = statusOf w f
  ∧ statusOf w2 f ≠ ABANDONED.
Proof.
  intros Hf Hr Hs Hg Hfuel s w2.
  destruct fuel as [|[|fuel]]; try lia.
  repeat split.
  - cbn [runScheduler].
    rewrite (fire_first_attempt rt f b (gen 0%nat) w Hf Hr Hs (Hg 0%nat)).
    rewrite (fire_second_attempt rt f b (gen 1%nat) _ Hf) by (done || apply Hg).
    cbn [state messages trace]. rewrite <- app_assoc.
    destruct fuel; reflexivity.
  - unfold count. subst w2. cbn [trace].
    rewrite List.filter_app, length_app. simpl. lia.
  - unfold statusOf, marker. destruct (state w) as [s0|]; simpl; [|done].
    destruct (altOfferedFor s0) as [m|]; simpl; [|done].
    destruct (m !! f) as [[]|]; done.
Qed.

Lemma C3_two_attempts_then_silence_witness :
  let T := lit "Create me a 3 day trip in Tokyo" in
  let f := itineraryIdFrom T in
  let w := (wrappedOnFinish T (Some (lit "Day 1: Asakusa")) (lit "t0") initialWorld).2 in
  (runScheduler plainRuntime 7 (fun _ => GenThrows) 0 w).1 = 2%nat.
Proof.
  intros T f w.
  refine (f_equal fst (proj1 (C3_two_attempts_then_silence plainRuntime f
    {| itn_id := f; itn_text := lit "Day 1: Asakusa"; itn_createdAt := lit "t0" |}
    (fun _ => GenThrows) 7 w _ _ _ _ _))).
  - vm_compute. discriminate.
  - vm_compute. reflexivity.
  - vm_compute. reflexivity.
  - reflexivity.
  - lia.
Defined.

(** C3, as stated, fails in its last part: after the two failed runs for
    "Create me a 3 day trip in Tokyo" the record of the fingerprint is what
    scheduling left, not abandoned, and it is not terminal: one more
    invocation for the fingerprint calls the generator a third time. *)
Lemma C3_record_is_not_abandoned :
  let T := lit "Create me a 3 day trip in Tokyo" in
  let f := itineraryIdFrom T in
  let w := (wrappedOnFinish T (Some (lit "Day 1: Asakusa")) (lit "t0") initialWorld).2 in
  let w2 := (runScheduler plainRuntime 7 (fun _ => GenThrows) 0 w).2 in
  let w3 := (executeTask plainRuntime (JSON_stringify (altPayload f None)) GenThrows w2).2 in
  (runScheduler plainRuntime 7 (fun _ => GenThrows) 0 w).1 = 2%nat
  ∧ schedules w2 = []
  ∧ statusOf w2 f = SCHEDULED
  ∧ statusOf w2 f ≠ ABANDONED
  ∧ state w2 = state w
  ∧ count isGenerate (trace w2) = 2%nat
  ∧ count isGenerate (trace w3) = 3%nat.
Proof.
  vm_compute. repeat split. discriminate.
Qed.

(** ** The state machine *)

Lemma marker_of_state (w : World) (f : jsstring) :
  marker w f = default ∅ (altOfferedFor (default emptyState (state w))) !! f.
Proof.
  unfold marker. destruct (state w) as [s|]; simpl; [|done].
  now destruct (altOfferedFor s).
Qed.

Lemma marker_same_state (w w' : World) (f : jsstring) :
  state w' = state w → marker w' f = marker w f.
Proof. unfold marker. now intros ->. Qed.

Lemma marker_completed (i f : jsstring) (w w' : World) :
  state w' = Some (completedState i (default emptyState (state w))) →
  marker w' f = if decide (i = f) then Some true else marker w f.
Proof.
  intros H. rewrite (marker_of_state w f). unfold marker. rewrite H. simpl.
  apply lookup_insert.
Qed.

Lemma ready_offered (w : World) (f : jsstring) :
  marker w f = Some true → ready w f = None.
Proof.
  rewrite marker_of_state. unfold ready, offered. now intros ->.
Qed.

(** A run of [executeTask] leaves the state alone or writes the marker
    [true] of the fingerprint it posts the alternative of. *)
Lemma executeTask_state rt (d : jsstring) gen (w : World) :
  state (executeTask rt d gen w).2 = state w
  ∨ ∃ f, state (executeTask rt d gen w).2
         = Some (completedState f (default emptyState (state w))).
Proof.
  destruct (executeTask_cases rt d gen w) as [H|[[f H]|[c H]]].
  - rewrite executeTask_default by done. now left.
  - rewrite (executeTask_targets rt d f) by done.
    destruct (ready w f) as [b|] eqn:Hr.
    + destruct (finalAltOf gen) as [alt|] eqn:Hg.
      * rewrite (alternativeFor_posts rt f _ gen w b alt) by done.
        right. now exists f.
      * rewrite (alternativeFor_fails rt f _ gen w b) by done. now left.
    + rewrite alternativeFor_blocked by done. now left.
  - rewrite H. now left.
Qed.

Lemma status_terminal (w : World) (f : jsstring) :
  terminal (statusOf w f) = true → marker w f = Some true.
Proof. unfold statusOf. now destruct (marker w f) as [[]|]. Qed.

Lemma step_marker rt op (w : World) (f : jsstring) :
  marker (step rt op w) f = marker w f
  ∨ (marker w f ≠ Some true ∧ marker (step rt op w) f = Some false)
  ∨ marker (step rt op w) f = Some true.
Proof.
  destruct op as [t fin now|d gen|delta n]; simpl.
  - destruct (looksLikeItineraryRequest t) eqn:Ht.
    + rewrite wrappedOnFinish_accepted by done.
      destruct (marker w (itineraryIdFrom t)) as [[]|] eqn:E; simpl;
        try (now left);
        rewrite marker_recorded, <- marker_of_state;
        (destruct (decide (itineraryIdFrom t = f)) as [<-|]; [|now left]);
        right; left; now rewrite E.
    + rewrite wrappedOnFinish_rejected by done. now left.
  - destruct (executeTask_state rt d gen w) as [H|[i H]].
    + left. now apply marker_same_state.
    + rewrite (marker_completed i f w _ H).
      destruct (decide (i = f)); [now right; right|now left].
  - left. unfold upsert, marker. agent_unfold. simpl.
    now destruct (state w).
Qed.

(** C5.  The status of a fingerprint never moves backward under any event
    (rank: none, scheduled, then completed or abandoned).  Once it is
    terminal, every event leaves it as it is, and the two handlers do
    nothing at all for that fingerprint: [wrappedOnFinish] on a text with
    that fingerprint and [executeTask] on a payload for it return the
    durable object unchanged. *)
Theorem C5_status_only_moves_forward rt op (f : jsstring) (w : World) :
  (rank (statusOf w f) ≤ rank (statusOf (step rt op w) f))%nat
  ∧ (terminal (statusOf w f) = true →
       statusOf (step rt op w) f = statusOf w f
       ∧ (∀ t fin now, itineraryIdFrom t = f →
            wrappedOnFinish t fin now w = (tt, w))
       ∧ (∀ d gen, targets rt d f = true →
            executeTask rt d gen w = (Returned, w))).
Proof.
  split.
  - unfold statusOf.
    destruct (step_marker rt op w f) as [->|[[H ->]| ->]]; simpl; try lia.
    + destruct (marker w f) as [[]|]; simpl; try lia. done.
    + destruct (marker w f) as [[]|]; simpl; lia.
  - intros Hterm. apply status_terminal in Hterm as Hm. repeat split.
    + unfold statusOf.
      destruct (step_marker rt op w f) as [->|[[H _]| ->]];
        [done|done|now rewrite Hm].
    + intros t fin now <-.
      destruct (looksLikeItineraryRequest t) eqn:Ht.
      * rewrite wrappedOnFinish_accepted by done. now rewrite Hm.
      * now apply wrappedOnFinish_rejected.
    + intros d gen Ht. rewrite (executeTask_targets rt d f) by done.
      now apply alternativeFor_blocked, ready_offered.
Qed.

Lemma C5_status_only_moves_forward_witness :
  let T := lit "Create me a 3 day trip in Tokyo" in
  let f := itineraryIdFrom T in
  let d := JSON_stringify (altPayload f None) in
  let w := (wrappedOnFinish T (Some (lit "Day 1: Asakusa")) (lit "t0") initialWorld).2 in
  let w1 := (executeTask plainRuntime d (GenText (lit "Day 1: Ueno")) w).2 in
  terminal (statusOf w1 f) = true
  ∧ statusOf (step plainRuntime (OnPrimaryProduced T None (lit "t1")) w1) f = COMPLETED.
Proof.
  intros T f d w w1.
  assert (H : terminal (statusOf w1 f) = true) by (vm_compute; reflexivity).
  split; [exact H|].
  rewrite (proj1 (proj2 (C5_status_only_moves_forward plainRuntime
                           (OnPrimaryProduced T None (lit "t1")) f w1) H)).
  vm_compute. reflexivity.
Defined.

(** ** The guard on the base *)

Lemma baseHasMarker_step rt op (w : World) :
  baseHasMarker w → baseHasMarker (step rt op w).
Proof.
  intros Inv. destruct op as [t fin now|d gen|delta n]; simpl.
  - destruct (looksLikeItineraryRequest t) eqn:Ht.
    + rewrite wrappedOnFinish_accepted by done.
      destruct (default false (marker w (itineraryIdFrom t))); [done|].
      intros b. simpl. intros [= <-]. rewrite marker_recorded. simpl.
      now destruct (decide (itineraryIdFrom t = itineraryIdFrom t)).
    + now rewrite wrappedOnFinish_rejected.
  - destruct (executeTask_state rt d gen w) as [H|[i H]]; intros b.
    + rewrite H, (marker_same_state w _ _ H). apply Inv.
    + rewrite (marker_completed i _ w _ H), H. simpl. intros Hb.
      destruct (decide (i = itn_id b)); [done|now apply Inv].
  - intros b. unfold upsert, marker. agent_unfold. simpl. intros Hb.
    specialize (Inv b Hb). unfold marker in Inv. now destruct (state w).
Qed.

Lemma reachable_baseHasMarker rt (w : World) :
  reachable rt w → baseHasMarker w.
Proof.
  intros [ops ->]. induction ops as [|op ops IH] using rev_ind.
  - intros b. discriminate.
  - unfold run. rewrite foldl_app. simpl. now apply baseHasMarker_step.
Qed.

(** C6.  In every durable object that the events can produce, a run of
    [executeTask] for the fingerprint [f] does nothing when [f] has no
    record, and when the last itinerary is absent or is not the one of [f]:
    it returns with the state, the messages, the table of the scheduler and
    the calls made so far all unchanged. *)
Theorem C6_guard_on_missing_base rt (d f : jsstring) gen (w : World) :
  reachable rt w →
  targets rt d f = true →
  statusOf w f = NONE ∨ baseFor w f = None →
  executeTask rt d gen w = (Returned, w).
Proof.
  intros Hreach Ht Hcase.
  rewrite (executeTask_targets rt d f) by done.
  apply alternativeFor_blocked.
  pose proof (reachable_baseHasMarker rt w Hreach) as Inv.
  unfold ready. destruct (offered _ f); [done|].
  destruct (lastItinerary _) as [b|] eqn:Hb; [|done].
  destruct (decide (itn_id b = f)) as [<-|]; [|done].
  exfalso. specialize (Inv b Hb). destruct Hcase as [Hn|Hn].
  - unfold statusOf in Hn. destruct Inv as [x Hx]. rewrite Hx in Hn.
    now destruct x.
  - unfold baseFor in Hn. destruct (state w) as [s|]; simpl in *; [|done].
    rewrite Hb in Hn. simpl in Hn.
    now destruct (decide (itn_id b = itn_id b)).
Qed.

Lemma C6_guard_on_missing_base_witness :
  let T := lit "Create me a 3 day trip in Tokyo" in
  let f := itineraryIdFrom (lit "weekend trip") in
  let d := JSON_stringify (altPayload f None) in
  let w := run plainRuntime [OnPrimaryProduced T (Some (lit "Day 1")) (lit "t0")]
             initialWorld in
  statusOf w f = NONE
  ∧ executeTask plainRuntime d (GenText (lit "Day 1: Ueno")) w = (Returned, w).
Proof.
  intros T f d w.
  assert (H : statusOf w f = NONE) by (vm_compute; reflexivity).
  split; [exact H|].
  apply (C6_guard_on_missing_base plainRuntime d f (GenText (lit "Day 1: Ueno")) w).
  - now exists [OnPrimaryProduced T (Some (lit "Day 1")) (lit "t0")].
  - vm_compute. reflexivity.
  - left. exact H.
Defined.

(** ** The preference merge *)

Lemma mergeValue_unfold (existing : option pval) (incoming : pval) :
  mergeValue existing incoming
  = match incoming, existing with
    | PMap d, Some (PMap p) => PMap (deepMerge p d)
    | _, _ => incoming
    end.
Proof. now destruct incoming, existing as [[]|]. Qed.

Lemma deepMerge_lookup (P D : gmap jsstring pval) (k : jsstring) :
  deepMerge P D !! k
  = match D !! k with
    | None => P !! k
    | Some v => Some (mergeValue (P !! k) v)
    end.
Proof.
  unfold deepMerge. rewrite lookup_union, map_lookup_imap.
  destruct (D !! k) as [v|]; simpl; [|now destruct (P !! k)].
  now destruct (P !! k).
Qed.

(** C7.  [upsert] writes the deep merge of the delta into the preferences.
    In the merged map a key that the delta does not have keeps the value it
    had, so no key is lost; a key at which both the old and the incoming
    value are mappings holds the merge of the two; at any other key of the
    delta the incoming value stands.  Merging [{b:3, c:4}] into
    [{a:1, b:2}] gives [{a:1, b:3, c:4}]. *)
Theorem C7_merge_preserves_untouched_keys
    (P D : gmap jsstring pval) (notes' : option jsstring) (k : jsstring) (w : World) :
  (s ← state (upsert D notes' w).2; p ← profile s; preferences p)
  = Some (deepMerge (default ∅ (profile (default emptyState (state w)) ≫= preferences)) D)
  ∧ deepMerge P D !! k
    = match D !! k with
      | None => P !! k
      | Some (PMap d) =>
          match P !! k with
          | Some (PMap p) => Some (PMap (deepMerge p d))
          | _ => Some (PMap d)
          end
      | Some v => Some v
      end
  ∧ dom P ⊆ dom (deepMerge P D)
  ∧ deepMerge {[lit "a" := PNum 1; lit "b" := PNum 2]}
              {[lit "b" := PNum 3; lit "c" := PNum 4]}
    = {[lit "a" := PNum 1; lit "b" := PNum 3; lit "c" := PNum 4]}.
Proof.
  split; [|split; [|split]].
  - unfold upsert. agent_unfold. simpl. reflexivity.
  - rewrite deepMerge_lookup. destruct (D !! k) as [v|]; [|done].
    rewrite mergeValue_unfold. now destruct v, (P !! k) as [[]|].
  - intros x. rewrite !elem_of_dom, deepMerge_lookup.
    intros Hx. now destruct (D !! x).
  - apply map_eq. intros i. rewrite deepMerge_lookup.
    destruct (decide (i = lit "a")) as [->|Ha]; [vm_compute; reflexivity|].
    destruct (decide (i = lit "b")) as [->|Hb]; [vm_compute; reflexivity|].
    destruct (decide (i = lit "c")) as [->|Hc]; [vm_compute; reflexivity|].
    rewrite !lookup_insert_ne, !lookup_singleton_ne by done. reflexivity.
Qed.

(** ** The fingerprint depends on the text alone *)

(** C8.  The fingerprint is the text "itn-" followed by the hexadecimal
    digits of the polynomial hash of the code units of the text modulo 2^32:
    a value that the text alone determines.  Nothing else enters it: in
    whatever durable object, with whatever primary output and at whatever
    time [wrappedOnFinish] runs on the text, the only marker that may change
    is the one of that fingerprint and the only tasks it may enqueue carry
    that fingerprint. *)
Theorem C8_fingerprint_is_a_function_of_the_text (t : jsstring) :
  itineraryIdFrom t = lit "itn-" ++ toString16 (polynomial t mod 2 ^ 32)
  ∧ ∀ fin now (w : World),
      let w' := (wrappedOnFinish t fin now w).2 in
      (∀ f, f = itineraryIdFrom t ∨ marker w' f = marker w f)
      ∧ (schedules w' = schedules w
         ∨ schedules w' = schedules w ++ [firstTask (itineraryIdFrom t)]).
Proof.
  split.
  - unfold itineraryIdFrom. now rewrite hash_polynomial.
  - intros fin now w w'. subst w'.
    destruct (looksLikeItineraryRequest t) eqn:Ht.
    + rewrite wrappedOnFinish_accepted by done.
      destruct (default false (marker w (itineraryIdFrom t))); simpl.
      * split; [now right|now left].
      * split; [|now right]. intros f.
        rewrite marker_recorded, <- marker_of_state.
        destruct (decide (itineraryIdFrom t = f)); [now left|now right].
    + rewrite wrappedOnFinish_rejected by done. split; [now right|now left].
Qed.

(** * Further properties *)

(** ** The shape of a fingerprint *)

Lemma hexDigit_lower (d : N) : d < 16 → isLowerHex (hexDigit d) = true.
Proof.
  intros Hd. unfold isLowerHex, hexDigit, isDigit.
  destruct (N.ltb_spec d 10); bool_cases; simpl; try lia; reflexivity.
Qed.

Lemma hexDigits_digits (fuel : nat) (n : N) (acc : jsstring) :
  (0 < fuel)%nat → n < 16 ^ N.of_nat fuel →
  ∃ ds, hexDigits fuel n acc = ds ++ acc
        ∧ (1 ≤ length ds ≤ fuel)%nat
        ∧ Forall (fun c => isLowerHex c = true) ds
        ∧ hexValue ds = n.
Proof.
  revert n acc. induction fuel as [|fuel IH]; intros n acc Hf Hn; [lia|].
  cbn [hexDigits].
  assert (Hd : hexVal (hexDigit (n mod 16)) = Some (n mod 16))
    by (apply hexVal_hexDigit, N.mod_upper_bound; lia).
  destruct (N.eqb_spec (n / 16) 0) as [Hz|Hz].
  - exists [hexDigit (n mod 16)]. repeat split; simpl; try lia.
    + repeat constructor. apply hexDigit_lower, N.mod_upper_bound. lia.
    + unfold hexValue. simpl. rewrite Hd. simpl.
      pose proof (N.div_mod n 16 ltac:(lia)). lia.
  - assert (Hlt : n / 16 < 16 ^ N.of_nat fuel).
    { apply N.Div0.div_lt_upper_bound.
      rewrite Nat2N.inj_succ, N.pow_succ_r' in Hn. lia. }
    assert (Hpos : (0 < fuel)%nat).
    { destruct fuel; [|lia]. change (16 ^ N.of_nat 0) with 1 in Hlt.
      apply N.lt_1_r in Hlt. done. }
    destruct (IH (n / 16) (hexDigit (n mod 16) :: acc) Hpos Hlt)
      as (ds & -> & Hlen & Hall & Hval).
    exists (ds ++ [hexDigit (n mod 16)]). repeat split.
    + now rewrite <- app_assoc.
    + rewrite length_app. simpl. lia.
    + rewrite length_app. simpl. lia.
    + apply Forall_app. split; [done|]. repeat constructor.
      apply hexDigit_lower, N.mod_upper_bound. lia.
    + unfold hexValue in *. rewrite foldl_app. simpl. rewrite Hval, Hd. simpl.
      pose proof (N.div_mod n 16 ltac:(lia)). lia.
Qed.

Lemma toString16_digits (h : N) :
  h < 2 ^ 32 →
  (1 ≤ length (toString16 h) ≤ 8)%nat
  ∧ Forall (fun c => isLowerHex c = true) (toString16 h)
  ∧ hexValue (toString16 h) = h.
Proof.
  intros Hh. unfold toString16.
  destruct (hexDigits_digits 8 h []) as (ds & -> & H1 & H2 & H3);
    [lia|simpl; lia|].
  now rewrite app_nil_r.
Qed.

Lemma polynomial_range (t : jsstring) : polynomial t mod 2 ^ 32 < 2 ^ 32.
Proof. apply N.mod_upper_bound. lia. Qed.

Lemma itineraryIdFrom_polynomial (t : jsstring) :
  itineraryIdFrom t = lit "itn-" ++ toString16 (polynomial t mod 2 ^ 32).
Proof. unfold itineraryIdFrom. now rewrite hash_polynomial. Qed.

(** X1.  A fingerprint is the four characters "itn-" followed by one to
    eight small hexadecimal digits, and these digits denote the hash: reading
    them back gives the polynomial of the text modulo 2^32. *)
Theorem X1_fingerprint_shape (t : jsstring) :
  ∃ ds, itineraryIdFrom t = lit "itn-" ++ ds
        ∧ (1 ≤ length ds ≤ 8)%nat
        ∧ Forall (fun c => isLowerHex c = true) ds
        ∧ hexValue ds = polynomial t mod 2 ^ 32.
Proof.
  exists (toString16 (polynomial t mod 2 ^ 32)).
  split; [apply itineraryIdFrom_polynomial|].
  apply toString16_digits, polynomial_range.
Qed.

(** X2.  Two texts have the same fingerprint exactly when their polynomial
    hashes agree modulo 2^32: the hexadecimal rendering loses nothing. *)
Theorem X2_fingerprint_equal_iff_hash_equal (t1 t2 : jsstring) :
  itineraryIdFrom t1 = itineraryIdFrom t2
  ↔ polynomial t1 mod 2 ^ 32 = polynomial t2 mod 2 ^ 32.
Proof.
  rewrite !itineraryIdFrom_polynomial. split.
  - intros H. apply app_inv_head in H.
    destruct (toString16_digits _ (polynomial_range t1)) as (_ & _ & <-).
    destruct (toString16_digits _ (polynomial_range t2)) as (_ & _ & <-).
    now rewrite H.
  - now intros ->.
Qed.

Lemma polynomial_app (a b : jsstring) :
  polynomial (a ++ b) = polynomial a * 31 ^ N.of_nat (length b) + polynomial b.
Proof.
  induction a as [|c a IH]; simpl; [lia|].
  rewrite IH, length_app, Nat2N.inj_add, N.pow_add_r. lia.
Qed.

(** X3.  The fingerprint tolerates collisions, and they spread: when two
    blocks of the same length have the same hash, exchanging one for the
    other anywhere in a text leaves the fingerprint as it is.  "Aa" and "BB"
    are such blocks. *)
Theorem X3_collisions_spread (x y pre post : jsstring) :
  length x = length y →
  polynomial x mod 2 ^ 32 = polynomial y mod 2 ^ 32 →
  itineraryIdFrom (pre ++ x ++ post) = itineraryIdFrom (pre ++ y ++ post).
Proof.
  intros Hlen Hxy. rewrite !itineraryIdFrom_polynomial. do 2 f_equal.
  rewrite !polynomial_app, !length_app, Hlen.
  set (A := polynomial pre * _). set (B := 31 ^ _). set (C := polynomial post).
  rewrite (N.Div0.add_mod A (polynomial x * B + C)).
  rewrite (N.Div0.add_mod (polynomial x * B) C).
  rewrite (N.Div0.mul_mod (polynomial x) B), Hxy.
  rewrite <- (N.Div0.mul_mod (polynomial y) B).
  rewrite <- (N.Div0.add_mod (polynomial y * B) C).
  now rewrite <- (N.Div0.add_mod A (polynomial y * B + C)).
Qed.

Lemma X3_collisions_spread_witness :
  itineraryIdFrom (lit "trip to " ++ lit "Aa" ++ lit " lake")
  = itineraryIdFrom (lit "trip to " ++ lit "BB" ++ lit " lake").
Proof.
  apply (X3_collisions_spread (lit "Aa") (lit "BB")); reflexivity.
Defined.

(** ** The text of the user *)

Lemma trimStart_head (t : jsstring) :
  isSpace <$> head (trimStart t) ≠ Some true.
Proof.
  induction t as [|c t IH]; [done|]. simpl.
  destruct (isSpace c) eqn:E; [done|]. simpl. now rewrite E.
Qed.

Lemma trimStart_suffix (t : jsstring) : ∃ ws, t = ws ++ trimStart t.
Proof.
  induction t as [|c t [ws IH]]; [now exists []|]. simpl.
  destruct (isSpace c); [|now exists []].
  exists (c :: ws). simpl. now rewrite <- IH.
Qed.

Lemma trimStart_last (t : jsstring) :
  trimStart t ≠ [] → last (trimStart t) = last t.
Proof.
  intros Hne. destruct (trimStart_suffix t) as [ws H].
  rewrite H at 2. destruct (trimStart t) as [|c r]; [done|].
  now rewrite last_app_cons.
Qed.

Lemma trim_ends (t : jsstring) :
  isSpace <$> head (trim t) ≠ Some true ∧ isSpace <$> last (trim t) ≠ Some true.
Proof.
  unfold trim. split.
  - rewrite head_reverse.
    destruct (trimStart (reverse (trimStart t))) as [|c r] eqn:E; [done|].
    rewrite <- E, trimStart_last by now rewrite E.
    rewrite last_reverse. apply trimStart_head.
  - rewrite last_reverse. apply trimStart_head.
Qed.

Lemma find_app {A} (p : A → bool) (l1 l2 : list A) :
  List.find p (l1 ++ l2)
  = match List.find p l1 with Some x => Some x | None => List.find p l2 end.
Proof.
  induction l1 as [|x l1 IH]; [done|]. simpl. now destruct (p x).
Qed.

Lemma find_none {A} (p : A → bool) (l : list A) :
  Forall (fun x => p x = false) l → List.find p l = None.
Proof. induction 1 as [|x l Hx _ IH]; [done|]. simpl. now rewrite Hx. Qed.

(** The last user message found from the end of the log. *)
Lemma lastUserText_split (msgs tail : list Message) (m : Message) :
  role m = user →
  Forall (fun x => role x ≠ user) tail →
  lastUserText (msgs ++ m :: tail)
  = trim match List.find (fun p => match p with TextPart _ => true | OtherPart => false end)
                         (parts m) with
         | Some (TextPart t) => t
         | _ => []
         end.
Proof.
  intros Hm Htail. unfold lastUserText.
  rewrite reverse_app, reverse_cons, <- app_assoc, find_app.
  rewrite find_none.
  - simpl. now rewrite Hm.
  - apply Forall_reverse. eapply Forall_impl; [exact Htail|].
    intros x Hx. simpl in Hx. now destruct (role x).
Qed.

(** X4.  [lastUserText] is the trimmed text of the first text part of the
    last user message: the messages before it and the replies after it do
    not matter, and the result neither starts nor ends with white space. *)
Theorem X4_lastUserText_of_last_user_message
    (msgs tail : list Message) (m : Message) (others rest : list Part) (t : jsstring) :
  role m = user →
  parts m = others ++ TextPart t :: rest →
  Forall (fun p => p = OtherPart) others →
  Forall (fun x => role x ≠ user) tail →
  lastUserText (msgs ++ m :: tail) = trim t
  ∧ isSpace <$> head (trim t) ≠ Some true
  ∧ isSpace <$> last (trim t) ≠ Some true.
Proof.
  intros Hm Hp Ho Htail. split; [|apply trim_ends].
  rewrite lastUserText_split by done. rewrite Hp, find_app.
  rewrite find_none; [done|].
  eapply Forall_impl; [exact Ho|]. now intros p ->.
Qed.

Lemma X4_lastUserText_of_last_user_message_witness :
  lastUserText
    ([{| role := user; parts := [TextPart (lit "a trip to Rome")] |}]
     ++ {| role := user; parts := [OtherPart; TextPart (lit "  thanks ")] |}
     :: [{| role := assistant; parts := [TextPart (lit "welcome")] |}])
  = trim (lit "  thanks ").
Proof.
  apply (X4_lastUserText_of_last_user_message _ _ _ [OtherPart] [] (lit "  thanks ")).
  - reflexivity.
  - reflexivity.
  - repeat constructor.
  - repeat constructor. discriminate.
Defined.

(** X5.  When the log has no user message, or its last user message has no
    text part, [onChatMessage] schedules nothing and writes nothing, even if
    an earlier user message asked for an itinerary. *)
Theorem X5_no_user_text_no_scheduling
    (fin : option jsstring) (now : jsstring) (w : World) :
  Forall (fun x => role x ≠ user) (messages w)
  ∨ (∃ msgs m tail,
       messages w = msgs ++ m :: tail
       ∧ role m = user
       ∧ Forall (fun p => p = OtherPart) (parts m)
       ∧ Forall (fun x => role x ≠ user) tail) →
  onChatMessage fin now w = (tt, w).
Proof.
  intros H. unfold onChatMessage. agent_unfold.
  assert (Ht : lastUserText (messages w) = []).
  { destruct H as [H|(msgs & m & tail & -> & Hm & Hp & Htail)].
    - unfold lastUserText. rewrite find_none; [done|].
      apply Forall_reverse. eapply Forall_impl; [exact H|].
      intros x Hx. simpl in Hx. now destruct (role x).
    - rewrite lastUserText_split by done. rewrite find_none; [done|].
      eapply Forall_impl; [exact Hp|]. now intros p ->. }
  rewrite Ht. reflexivity.
Qed.

Lemma X5_no_user_text_no_scheduling_witness :
  let w := {| state := None;
              messages := [{| role := user; parts := [TextPart (lit "a 3 day trip")] |};
                           {| role := user; parts := [OtherPart] |};
                           {| role := assistant; parts := [TextPart (lit "ok")] |}];
              schedules := []; trace := [] |} in
  onChatMessage (Some (lit "ok")) (lit "t0") w = (tt, w).
Proof.
  intros w. apply X5_no_user_text_no_scheduling. right.
  exists [{| role := user; parts := [TextPart (lit "a 3 day trip")] |}],
    {| role := user; parts := [OtherPart] |},
    [{| role := assistant; parts := [TextPart (lit "ok")] |}].
  repeat split; repeat constructor. discriminate.
Defined.

(** ** What the classifier accepts and rejects *)


















Lemma starOf_continues (p : N → bool) k (prev : option N) (s : jsstring) :
  starOf p k prev s = true → ∃ prev' s', s' `suffix_of` s ∧ k prev' s' = true.
Proof.
  revert prev. induction s as [|c s IH]; intros prev H; simpl in H.
  - now exists prev, [].
  - apply orb_prop in H as [[_ H]%andb_prop|H].
    + destruct (IH _ H) as (prev' & s' & Hs & Hk).
      exists prev', s'. split; [now apply suffix_cons_r|done].
    + now exists prev, (c :: s).
Qed.

(** A match calls its continuation on what is left of the input. *)
Lemma rmatch_continues (r : regex) k (prev : option N) (s : jsstring) :
  rmatch r k prev s = true → ∃ prev' s', s' `suffix_of` s ∧ k prev' s' = true.
Proof.
  revert k prev s. induction r as [c| |r1 IH1 r2 IH2|r IH|p|p]; intros k prev s H;
    simpl in H.
  - destruct s as [|x s]; [done|]. apply andb_prop in H as [_ H].
    exists (Some x), s. split; [now apply suffix_cons_r|done].
  - apply andb_prop in H as [_ H]. now exists prev, s.
  - destruct (IH1 _ _ _ H) as (p1 & s1 & Hs1 & H1).
    destruct (IH2 _ _ _ H1) as (p2 & s2 & Hs2 & H2).
    exists p2, s2. split; [now transitivity s1|done].
  - apply orb_prop in H as [H|H]; [exact (IH _ _ _ H)|now exists prev, s].
  - exact (starOf_continues _ _ _ _ H).
  - destruct s as [|x s]; [done|]. apply andb_prop in H as [_ H].
    destruct (starOf_continues _ _ _ _ H) as (prev' & s' & Hs & Hk).
    exists prev', s'. split; [now apply suffix_cons_r|done].
Qed.

Lemma not_elem_of_suffix (c : N) (s' s : jsstring) :
  s' `suffix_of` s → c ∉ s → c ∉ s'.
Proof. intros [k ->] H Hc. apply H, elem_of_app. now right. Qed.

Lemma rmatch_needs (r : regex) (c : N) k (prev : option N) (s : jsstring) :
  needsUnit c r = true → c ∉ s → rmatch r k prev s = false.
Proof.
  revert k prev s. induction r as [c'| |r1 IH1 r2 IH2|r IH|p|p];
    intros k prev s Hn Hc; simpl in Hn; try done.
  - apply N.eqb_eq in Hn as ->. destruct s as [|x s]; [done|]. simpl.
    destruct (N.eqb_spec x c) as [->|]; [|done].
    exfalso. apply Hc. now left.
  - simpl. apply orb_prop in Hn as [Hn|Hn]; [now apply IH1|].
    destruct (rmatch r1 (rmatch r2 k) prev s) eqn:E; [|done].
    destruct (rmatch_continues _ _ _ _ E) as (p1 & s1 & Hs1 & H1).
    rewrite IH2 in H1; [done|done|]. now apply (not_elem_of_suffix c s1 s).
Qed.

Lemma test_needs (r : regex) (c : N) (s : jsstring) :
  needsUnit c r = true → c ∉ s → test r s = false.
Proof.
  intros Hn. unfold test. generalize (@None N).
  induction s as [|x s IH]; intros prev Hc; simpl.
  - now rewrite (rmatch_needs r c).
  - rewrite (rmatch_needs r c) by done. simpl. apply IH.
    intros H. apply Hc. now right.
Qed.

(** X8.  Every pattern of the classifier reads one of the letters y, k and
    p: a text whose lower case has none of the three is rejected, and
    [wrappedOnFinish] does nothing for it. *)
Theorem X8_text_without_keyword_letters_is_rejected
    (t : jsstring) (fin : option jsstring) (now : jsstring) (w : World) :
  121 ∉ toLowerCase t → 107 ∉ toLowerCase t → 112 ∉ toLowerCase t →
  looksLikeItineraryRequest t = false
  ∧ wrappedOnFinish t fin now w = (tt, w).
Proof.
  intros Hy Hk Hp.
  assert (H : looksLikeItineraryRequest t = false).
  { unfold looksLikeItineraryRequest.
    rewrite (test_needs reDays 121), (test_needs reWeek 107),
      (test_needs reItinerary 121), (test_needs reTrip 112); done. }
  split; [exact H|]. now apply wrappedOnFinish_rejected.
Qed.

Lemma X8_text_without_keyword_letters_is_rejected_witness :
  wrappedOnFinish (lit "Hello there, 3 nights in London") None [] initialWorld
  = (tt, initialWorld).
Proof.
  apply X8_text_without_keyword_letters_is_rejected;
    vm_compute; intros H;
    repeat (apply elem_of_cons in H as [H|H]; [discriminate|]);
    now apply elem_of_nil in H.
Defined.

(** ** Payloads that are not alternatives: the run and its chat turn *)










(** The turn after the behaviour of the starter on the label "book the
    trip": the saved message is one that the classifier accepts, and the
    durable object ends with the last itinerary and the marker of its
    fingerprint and with a task in the table. *)
Example ex_label_that_reads_as_a_request :
  let d := lit "book the trip" in
  let text := lit "Running scheduled task: book the trip" in
  let w' := (executeTaskAndTurn plainRuntime d GenThrows (Some (lit "Done."))
               (lit "t0") initialWorld).2 in
  looksLikeItineraryRequest text = true
  ∧ itineraryIdFrom text = lit "itn-2236098c"
  ∧ statusOf w' (itineraryIdFrom text) = SCHEDULED
  ∧ baseFor w' (itineraryIdFrom text)
    = Some {| itn_id := itineraryIdFrom text; itn_text := lit "Done.";
              itn_createdAt := lit "t0" |}
  ∧ schedules w' = [firstTask (itineraryIdFrom text)].
Proof.
  vm_compute. repeat split.
Qed.

(** ** From the payload back to the fingerprint *)

(** X9.  What the workflow writes, [executeTask] reads: for a fingerprint
    that is not empty, the payload of the first task parses to an alternative
    for that fingerprint without a retry hint, and the payload of the retry
    to an alternative for it with the hint 1.  This holds whatever characters
    the fingerprint has (quotes, control characters, lone surrogates). *)
Theorem X9_payloads_read_back rt (f : jsstring) :
  f ≠ [] →
  targets rt (payload (firstTask f)) f = true
  ∧ retryHint (payload (firstTask f)) = None
  ∧ targets rt (payload (retryTask f (JNum 1))) f = true
  ∧ retryHint (payload (retryTask f (JNum 1))) = Some (JNum 1).
Proof.
  intros Hf.
  destruct (targets_altPayload rt f None Hf (JSON_parse_altPayload_none f)).
  destruct (targets_altPayload rt f (Some (JNum 1)) Hf (JSON_parse_altPayload_retry f)).
  done.
Qed.

Lemma X9_payloads_read_back_witness :
  targets plainRuntime (payload (firstTask [34; 92; 10; 55357])) [34; 92; 10; 55357]
  = true.
Proof.
  apply (X9_payloads_read_back plainRuntime [34; 92; 10; 55357]). discriminate.
Defined.

(** ** The shapes of a run *)

Lemma ready_base (w : World) (f : jsstring) b :
  ready w f = Some b →
  lastItinerary (default emptyState (state w)) = Some b ∧ itn_id b = f
  ∧ marker w f ≠ Some true.
Proof.
  unfold ready. rewrite marker_of_state. intros H.
  destruct (offered _ f) eqn:Eo; [done|].
  destruct (lastItinerary _) as [b'|]; [|done].
  destruct (decide (itn_id b' = f)); [|done].
  injection H as ->. repeat split; [done|].
  unfold offered in Eo. intros Hm. now rewrite Hm in Eo.
Qed.

(** The world after a run that posts, and after a run that fails. *)
Lemma executeTask_shapes rt (d : jsstring) gen (w : World) :
  (executeTask rt d gen w).2 = w
  ∨ (executeTask rt d gen w).2
    = {| state := state w; messages := messages w ++ [defaultMessage d];
         schedules := schedules w;
         trace := trace w ++ [EvSaveMessages (messages w ++ [defaultMessage d])] |}
  ∨ (∃ f b alt,
       ready w f = Some b ∧ targets rt d f = true ∧
       (executeTask rt d gen w).2
       = let s := default emptyState (state w) in
         {| state := Some (completedState f s);
            messages := messages w ++ [altMessage f alt];
            schedules := schedules w;
            trace := trace w ++ [generateEvent s b; EvSetState (completedState f s);
                                 EvSaveMessages (messages w ++ [altMessage f alt])] |})
  ∨ (∃ f b,
       ready w f = Some b ∧ targets rt d f = true ∧
       (executeTask rt d gen w).2
       = {| state := state w; messages := messages w;
            schedules := schedules w ++ retryTasks rt f (retryHint d);
            trace := trace w ++ generateEvent (default emptyState (state w)) b
                     :: (EvSchedule <$> retryTasks rt f (retryHint d)) |}).
Proof.
  destruct (executeTask_cases rt d gen w) as [H|[[f H]|[c H]]].
  - right. left. now rewrite executeTask_default.
  - rewrite (executeTask_targets rt d f) by done.
    destruct (ready w f) as [b|] eqn:Hr.
    + destruct (finalAltOf gen) as [alt|] eqn:Hg.
      * right. right. left. exists f, b, alt.
        now rewrite (alternativeFor_posts rt f _ gen w b alt).
      * right. right. right. exists f, b.
        now rewrite (alternativeFor_fails rt f _ gen w b).
    + left. now rewrite alternativeFor_blocked.
  - left. now rewrite H.
Qed.

Lemma retryTasks_short rt (f : jsstring) hint :
  (length (retryTasks rt f hint) ≤ 1)%nat
  ∧ Forall (fun t => delay t = 10 ∧ callback t = "executeTask"%string)
           (retryTasks rt f hint).
Proof.
  unfold retryTasks. destruct (nextRetry rt hint); simpl; split; auto.
Qed.

(** X10.  What a run of [executeTask] does of its own, whatever the
    description, the generator and the durable object.  A run that does not
    call [saveMessages] leaves the state and the messages as they are, calls
    [setState] never, and enqueues at most one task, which has delay 10 and
    calls [executeTask].  A run that calls [saveMessages] hands it the log
    with exactly one more message; before that call it has scheduled
    nothing, and has written the state at most once, changing only the
    marker of one fingerprint to [true]. *)
Theorem X10_executeTask_before_saving rt (d : jsstring) gen (w : World) :
  let w' := (executeTask rt d gen w).2 in
  ∃ es, trace w' = trace w ++ es
    ∧ ((count isSaveMessages es = 0%nat
        ∧ count isSetState es = 0%nat
        ∧ state w' = state w
        ∧ messages w' = messages w
        ∧ ∃ ts, schedules w' = schedules w ++ ts ∧ (length ts ≤ 1)%nat
             ∧ Forall (fun t => delay t = 10 ∧ callback t = "executeTask"%string) ts
             ∧ count isSchedule es = length ts)
       ∨ (∃ pre m post,
            es = pre ++ EvSaveMessages (messages w ++ [m]) :: post
            ∧ count isSaveMessages pre = 0%nat
            ∧ count isSchedule pre = 0%nat
            ∧ (count isSetState pre ≤ 1)%nat
            ∧ ∀ s', EvSetState s' ∈ pre →
                ∃ f, let s := default emptyState (state w) in
                  profile s' = profile s
                  ∧ itineraryCounter s' = itineraryCounter s
                  ∧ lastItinerary s' = lastItinerary s
                  ∧ altOfferedFor s'
                    = Some (<[f := true]> (default ∅ (altOfferedFor s))))).
Proof.
  intros w'. subst w'.
  destruct (executeTask_shapes rt d gen w)
    as [-> | [-> | [(f & b & alt & Hr & Ht & ->) | (f & b & Hr & Ht & ->)]]];
    cbn [state messages schedules trace].
  - exists []. split; [now rewrite app_nil_r|]. left.
    repeat split; try done. exists []. rewrite app_nil_r.
    repeat split; simpl; auto.
  - eexists. split; [reflexivity|]. right.
    exists [], (defaultMessage d), []. unfold count. simpl.
    repeat split; try done; try lia.
    intros s' Hs. now apply elem_of_nil in Hs.
  - eexists. split; [reflexivity|]. right.
    exists [generateEvent (default emptyState (state w)) b;
            EvSetState (completedState f (default emptyState (state w)))],
      (altMessage f alt), [].
    unfold count. simpl.
    repeat split; try done; try lia.
    intros s' Hs. exists f.
    apply elem_of_cons in Hs as [Hs|Hs]; [discriminate|].
    apply elem_of_cons in Hs as [Hs|Hs]; [|now apply elem_of_nil in Hs].
    now injection Hs as ->.
  - destruct (retryTasks_short rt f (retryHint d)) as [H1 H2].
    eexists. split; [reflexivity|]. left.
    assert (Hc : ∀ p ts, (∀ t, p (EvSchedule t) = false) →
              count p (generateEvent (default emptyState (state w)) b
                       :: (EvSchedule <$> ts)) = (if p (generateEvent (default emptyState (state w)) b) then 1 else 0)%nat).
    { intros p ts Hp. unfold count. simpl.
      assert (Hf : List.filter p (EvSchedule <$> ts) = []).
      { induction ts as [|t ts IH]; [done|]. simpl. now rewrite Hp. }
      rewrite Hf. now destruct (p _). }
    split; [now rewrite Hc|]. split; [now rewrite Hc|].
    split; [done|]. split; [done|].
    exists (retryTasks rt f (retryHint d)). split; [done|].
    split; [done|]. split; [done|].
    change (count isSchedule (EvSchedule <$> retryTasks rt f (retryHint d))
            = length (retryTasks rt f (retryHint d))).
    clear. unfold count.
    induction (retryTasks rt f (retryHint d)) as [|t ts IH]; [done|].
    simpl. f_equal. exact IH.
Qed.


Lemma isNull_iff (v : jsval) : isNull v = true ↔ v = JNull.
Proof. now destruct v. Qed.




(** [executeTask] on the payload
    [{"kind":"altItinerary","itineraryId":{"toString":1}}] and on a retry
    hint of that shape. *)
Example ex_executeTask_throws :
  let unkeyable := JObj [(lit "toString", JNum 1)] in
  let d := JSON_stringify (JObj [(lit "kind", JStr (lit "altItinerary"));
                                 (lit "itineraryId", unkeyable)]) in
  let T := lit "Create me a 3 day trip in Tokyo" in
  let w := (wrappedOnFinish T (Some (lit "Day 1")) (lit "t0") initialWorld).2 in
  let d' := JSON_stringify (altPayload (itineraryIdFrom T) (Some unkeyable)) in
  executeTask plainRuntime d GenThrows initialWorld = (Threw, initialWorld)
  ∧ (executeTask plainRuntime d' GenThrows w).1 = Threw
  ∧ schedules (executeTask plainRuntime d' GenThrows w).2 = schedules w
  ∧ (executeTask plainRuntime d' (GenText (lit "Day 1: Ueno")) w).1 = Returned.
Proof.
  vm_compute. repeat split.
Qed.

(** ** Scheduled runs *)



Lemma not_offered (w : World) (f : jsstring) :
  marker w f ≠ Some true → default false (marker w f) = false.
Proof. now destruct (marker w f) as [[]|]. Qed.

Lemma ready_recorded (f g : jsstring) fin now s ms ts tr :
  ready {| state := Some (recorded f fin now s); messages := ms;
           schedules := ts; trace := tr |} g
  = if decide (f = g)
    then Some {| itn_id := f; itn_text := default [] fin; itn_createdAt := now |}
    else None.
Proof.
  unfold ready, recorded, offered. simpl.
  destruct (decide (f = g)) as [<-|Hne].
  - now rewrite lookup_insert_eq.
  - now destruct (match _ with Some b => b | None => _ end).
Qed.

(** X12.  There is one slot for the base.  When a second itinerary with
    another fingerprint is scheduled before the task of the first has run,
    that task finds the base of the second: it returns without calling the
    generator, posting or scheduling, whatever the generator would have
    answered, and the first itinerary gets no alternative from it.  The
    second one is ready. *)
Theorem X12_newer_itinerary_supersedes_the_older rt (t1 t2 : jsstring)
    f1 n1 f2 n2 gen (w : World) :
  looksLikeItineraryRequest t1 = true →
  looksLikeItineraryRequest t2 = true →
  itineraryIdFrom t1 ≠ itineraryIdFrom t2 →
  marker w (itineraryIdFrom t1) ≠ Some true →
  marker w (itineraryIdFrom t2) ≠ Some true →
  let w1 := (wrappedOnFinish t1 f1 n1 w).2 in
  let w2 := (wrappedOnFinish t2 f2 n2 w1).2 in
  executeTask rt (payload (firstTask (itineraryIdFrom t1))) gen w2 = (Returned, w2)
  ∧ ready w2 (itineraryIdFrom t2)
    = Some {| itn_id := itineraryIdFrom t2; itn_text := default [] f2;
              itn_createdAt := n2 |}.
Proof.
  intros H1 H2 Hne Hm1 Hm2 w1 w2. subst w2 w1.
  rewrite (wrappedOnFinish_accepted t1 f1 n1 w H1), not_offered by done.
  cbn [snd]. rewrite (wrappedOnFinish_accepted t2 f2 n2 _ H2).
  rewrite marker_recorded.
  destruct (decide (itineraryIdFrom t1 = itineraryIdFrom t2)); [done|].
  rewrite <- marker_of_state, not_offered by done. cbn [snd state default].
  split.
  - assert (Hf : itineraryIdFrom t1 ≠ []).
    { destruct (itineraryIdFrom_prefix t1) as [x ->]. done. }
    destruct (targets_altPayload rt _ None Hf (JSON_parse_altPayload_none _))
      as [Ht _].
    cbn [payload firstTask]. rewrite (executeTask_targets rt _ _ gen _ Ht).
    apply alternativeFor_blocked. rewrite ready_recorded.
    destruct (decide (itineraryIdFrom t2 = itineraryIdFrom t1)); congruence.
  - rewrite ready_recorded.
    now destruct (decide (itineraryIdFrom t2 = itineraryIdFrom t2)).
Qed.

Lemma X12_newer_itinerary_supersedes_the_older_witness :
  let t1 := lit "Create me a 3 day trip in Tokyo" in
  let t2 := lit "a weekend in Rome" in
  let w2 := (wrappedOnFinish t2 (Some (lit "Day 1: Trastevere")) (lit "t1")
               (wrappedOnFinish t1 (Some (lit "Day 1: Asakusa")) (lit "t0")
                  initialWorld).2).2 in
  executeTask plainRuntime (payload (firstTask (itineraryIdFrom t1)))
    (GenText (lit "Day 1: Ueno")) w2 = (Returned, w2).
Proof.
  intros t1 t2 w2.
  apply (X12_newer_itinerary_supersedes_the_older plainRuntime t1 t2
           (Some (lit "Day 1: Asakusa")) (lit "t0")
           (Some (lit "Day 1: Trastevere")) (lit "t1")
           (GenText (lit "Day 1: Ueno")) initialWorld).
  - vm_compute. reflexivity.
  - vm_compute. reflexivity.
  - vm_compute. discriminate.
  - discriminate.
  - discriminate.
Defined.










(** ** The scheduler comes to rest *)







(** ** Whose records the durable object holds *)

Lemma recordsOfAccepted_step rt op (w : World) :
  recordsOfAccepted w → recordsOfAccepted (step rt op w).
Proof.
  intros (Hm & Hb & Hs). destruct op as [t fin now|d gen|delta n]; simpl.
  - destruct (looksLikeItineraryRequest t) eqn:Ht;
      [|now rewrite wrappedOnFinish_rejected].
    rewrite wrappedOnFinish_accepted by done.
    destruct (default false (marker w (itineraryIdFrom t))); [done|].
    assert (Hacc : fromAccepted (itineraryIdFrom t)) by now exists t.
    repeat split; simpl.
    + intros f. rewrite marker_recorded, <- marker_of_state.
      destruct (decide (itineraryIdFrom t = f)) as [<-|]; [done|apply Hm].
    + now intros b [= <-].
    + apply Forall_app. split; [done|]. repeat constructor.
      exists (itineraryIdFrom t). split; [done|now left].
  - destruct (executeTask_shapes rt d gen w)
      as [-> | [-> | [(f & b & alt & Hr & Ht & ->) | (f & b & Hr & Ht & ->)]]].
    + done.
    + done.
    + destruct (ready_base w f b Hr) as (Hl & Hid & _).
      assert (Hacc : fromAccepted f) by (rewrite <- Hid; now apply Hb).
      repeat split; simpl; [|done|done].
      intros g Hg. destruct (decide (f = g)) as [<-|Hne]; [done|].
      apply Hm. rewrite marker_of_state. unfold marker in Hg. simpl in Hg.
      now rewrite lookup_insert_ne in Hg.
    + destruct (ready_base w f b Hr) as (Hl & Hid & _).
      assert (Hacc : fromAccepted f) by (rewrite <- Hid; now apply Hb).
      repeat split; simpl; [done|done|].
      apply Forall_app. split; [done|]. unfold retryTasks.
      destruct (nextRetry rt (retryHint d)) as [r|]; repeat constructor.
      exists f. split; [done|]. right. now exists r.
  - unfold upsert. agent_unfold. repeat split; simpl.
    + intros f Hf. apply Hm. rewrite marker_of_state.
      unfold marker in Hf. simpl in Hf.
      destruct (altOfferedFor (default emptyState (state w))); [done|].
      now destruct Hf.
    + apply Hb.
    + done.
Qed.

Lemma reachable_recordsOfAccepted rt (w : World) :
  reachable rt w → recordsOfAccepted w.
Proof.
  intros [ops ->]. induction ops as [|op ops IH] using rev_ind.
  - repeat split; [now intros f [x Hx]|discriminate|constructor].
  - unfold run. rewrite foldl_app. simpl. now apply recordsOfAccepted_step.
Qed.

(** X16.  In every durable object that the events produce, each marker,
    the last itinerary and each scheduled task belong to the fingerprint of
    some text that the classifier accepted, whatever payloads [executeTask]
    was called with; the last itinerary has a marker; and no marker sits
    under a name that plain objects inherit ([constructor], [toString],
    ...), so reading a marker never finds an inherited value in place of a
    stored one. *)
Theorem X16_records_belong_to_accepted_texts rt (w : World) :
  reachable rt w →
  recordsOfAccepted w
  ∧ baseHasMarker w
  ∧ (∀ f, is_Some (marker w f) → f ∉ objectPrototypeKeys).
Proof.
  intros Hreach.
  pose proof (reachable_recordsOfAccepted rt w Hreach) as Hrec.
  split; [done|]. split; [now apply (reachable_baseHasMarker rt)|].
  destruct Hrec as (Hm & _ & _).
  intros f Hf. destruct (Hm f Hf) as (t & _ & ->).
  apply itineraryIdFrom_not_inherited.
Qed.

Lemma X16_records_belong_to_accepted_texts_witness :
  recordsOfAccepted
    (run plainRuntime
       [OnPrimaryProduced (lit "a weekend in Rome") None (lit "t0");
        OnDeferredInvoke (lit "water the plants") GenThrows]
       initialWorld).
Proof.
  apply (X16_records_belong_to_accepted_texts plainRuntime). now eexists.
Defined.

(** ** The memory line *)

Lemma allSome_None {A} (l : list (option A)) :
  allSome l = None ↔ None ∈ l.
Proof.
  induction l as [|o l IH]; simpl.
  - split; [done|]. intros H. now apply elem_of_nil in H.
  - rewrite elem_of_cons. destruct o as [x|].
    + destruct (allSome l); split; try done.
      * intros [H|H]; [done|]. now apply IH in H.
      * intros _. right. now apply IH.
    + split; [now left|done].
Qed.

Lemma allSome_take {A} (l : list (option A)) xs n :
  allSome l = Some xs → allSome (take n l) = Some (take n xs).
Proof.
  revert xs n. induction l as [|o l IH]; intros xs n; simpl.
  - intros [= <-]. now destruct n.
  - destruct o as [x|]; [|done]. destruct (allSome l) as [ys|] eqn:E; [|done].
    intros [= <-]. destruct n; [done|]. simpl. now rewrite (IH ys n eq_refl).
Qed.

Lemma allSome_length {A} (l : list (option A)) xs :
  allSome l = Some xs → length xs = length l.
Proof.
  revert xs. induction l as [|o l IH]; intros xs; simpl.
  - now intros [= <-].
  - destruct o as [x|]; [|done]. destruct (allSome l) as [ys|]; [|done].
    intros [= <-]. simpl. now rewrite (IH ys eq_refl).
Qed.

Lemma allSome_head {A} (o : option A) (l : list (option A)) x xs :
  allSome (o :: l) = Some (x :: xs) → o = Some x.
Proof.
  simpl. destruct o; [|done]. destruct (allSome l); [|done]. now intros [= -> _].
Qed.

(** The conversion of a preference value throws exactly on the values that
    hold, under lists only, a mapping with a key ["toString"]. *)
Lemma toStringValue_None ns :
  ∀ v, toStringValue ns v = None ↔ unprintable v = true.
Proof.
  fix IH 1. intros [ | b | n | s | l | m]; simpl; try done.
  - rewrite fmap_None, allSome_None.
    induction l as [|x l IHl]; simpl.
    + split; [|done]. intros H. now apply elem_of_nil in H.
    + rewrite elem_of_cons, orb_true_iff, <- IHl.
      assert (Hx : None = match x with
                          | PNull => Some []
                          | _ => toStringValue ns x
                          end ↔ unprintable x = true).
      { rewrite <- (IH x). destruct x; simpl; split; done. }
      now rewrite Hx.
  - destruct (bool_decide (is_Some (m !! lit "toString"))); split; done.
Qed.

Lemma elementString_None ns (x : pval) :
  elementString ns x = None ↔ unprintable x = true.
Proof.
  rewrite <- (toStringValue_None ns). now destruct x.
Qed.

(** The part of an entry throws exactly for a list with such an element. *)
Lemma prefPart_None ns (e : jsstring * pval) :
  prefPart ns e = None ↔ ∃ l, e.2 = PList l ∧ existsb unprintable l = true.
Proof.
  unfold prefPart. destruct e as [k v]. simpl.
  destruct v as [ | b | n | s | l | m]; simpl;
    try (split; [done|intros (l' & [=] & _)]).
  rewrite fmap_None, allSome_None. split.
  - intros H. exists l. split; [done|].
    apply list_elem_of_fmap in H as (x & Hx & Hin).
    apply existsb_exists. exists x. split; [now apply list_elem_of_In|].
    now apply (elementString_None ns).
  - intros (l' & [= <-] & H). apply existsb_exists in H as (x & Hin & Hx).
    apply list_elem_of_fmap. exists x. split; [|now apply list_elem_of_In].
    symmetry. now apply elementString_None.
Qed.

Lemma prefPart_not_empty ns (e : jsstring * pval) p :
  prefPart ns e = Some p → p ≠ [].
Proof.
  unfold prefPart. destruct e as [k v]. simpl.
  destruct v; simpl; rewrite ?fmap_Some;
    try (intros (x & _ & ->)); try (intros [= <-]);
    intros H; apply app_eq_nil in H as [_ H]; discriminate.
Qed.

Lemma join_not_empty (sep p : jsstring) (rest : list jsstring) :
  p ≠ [] → join sep (p :: rest) ≠ [].
Proof.
  intros Hp. simpl. destruct rest; [done|].
  intros H. now apply app_eq_nil in H as [H _].
Qed.

Lemma summarizePrefs_None ns (entries : list (jsstring * pval)) :
  summarizePrefs ns entries = None
  ↔ ∃ k l, (k, PList l) ∈ entries ∧ existsb unprintable l = true.
Proof.
  assert (H : allSome (map (prefPart ns) entries) = None
              ↔ ∃ k l, (k, PList l) ∈ entries ∧ existsb unprintable l = true).
  { rewrite allSome_None. split.
    - intros H. apply list_elem_of_fmap in H as ([k v] & He & Hin).
      symmetry in He. apply prefPart_None in He as (l & Hl & Hu).
      simpl in Hl. subst v. now exists k, l.
    - intros (k & l & Hin & Hu). apply list_elem_of_fmap.
      exists (k, PList l). split; [|done].
      symmetry. apply prefPart_None. now exists l. }
  destruct entries as [|e es].
  - simpl. split; [done|]. intros (k & l & Hin & _). now apply elem_of_nil in Hin.
  - unfold summarizePrefs. now rewrite fmap_None.
Qed.

Lemma summarizePrefs_empty ns (entries : list (jsstring * pval)) :
  summarizePrefs ns entries = Some [] ↔ entries = [].
Proof.
  split; [|now intros ->].
  destruct entries as [|e es]; [done|]. unfold summarizePrefs.
  rewrite fmap_Some. intros (ps & Hps & Hj). exfalso.
  destruct ps as [|p ps].
  { apply allSome_length in Hps. discriminate. }
  apply allSome_head in Hps. cbn [take] in Hj. symmetry in Hj. revert Hj.
  apply join_not_empty. now apply (prefPart_not_empty ns e).
Qed.

(** X17.  [summarizePrefs] throws exactly when some entry, at whatever
    position, is an array that holds, under arrays only, an object with a key
    ["toString"] of its own; when it returns, it shows the first eight
    entries and no more; it returns the empty string exactly for an object
    without entries; and of a value that is an object and not an array it
    shows the key only, never the contents. *)
Theorem X17_summary_of_preferences ns (entries : list (jsstring * pval)) :
  (summarizePrefs ns entries = None
   ↔ ∃ k l, (k, PList l) ∈ entries ∧ existsb unprintable l = true)
  ∧ (∀ s, summarizePrefs ns entries = Some s →
          summarizePrefs ns (take 8 entries) = Some s)
  ∧ (summarizePrefs ns entries = Some [] ↔ entries = [])
  ∧ (∀ pre k m m' post,
       entries = pre ++ (k, PMap m) :: post →
       summarizePrefs ns entries = summarizePrefs ns (pre ++ (k, PMap m') :: post)).
Proof.
  split; [apply summarizePrefs_None|]. split; [|split].
  - destruct entries as [|e es]; [done|]. intros s.
    change (take 8 (e :: es)) with (e :: take 7 es). unfold summarizePrefs.
    rewrite fmap_Some. intros (ps & Hps & ->).
    change (e :: take 7 es) with (take 8 (e :: es)).
    rewrite <- firstn_map. change (@firstn) with (@take).
    rewrite (allSome_take _ ps 8 Hps). simpl. now rewrite take_take.
  - apply summarizePrefs_empty.
  - intros pre k m m' post ->.
    destruct pre; unfold summarizePrefs; cbn [app map]; rewrite ?map_app;
      reflexivity.
Qed.

Lemma X17_summary_of_preferences_witness :
  summarizePrefs decimalZ
    ([(lit "budget", PNum 150)]
     ++ (lit "home", PMap {[lit "city" := PStr (lit "Toronto")]})
     :: [(lit "likes", PList [PStr (lit "anime"); PNull; PStr (lit "walks")])])
  = summarizePrefs decimalZ
      ([(lit "budget", PNum 150)]
       ++ (lit "home", PMap ∅)
       :: [(lit "likes", PList [PStr (lit "anime"); PNull; PStr (lit "walks")])]).
Proof.
  exact (proj2 (proj2 (proj2 (X17_summary_of_preferences decimalZ _))) _ _ _ ∅ _ eq_refl).
Defined.

(** X18.  The memory line throws exactly when [summarizePrefs] does; it is
    the empty string exactly when there is no preference entry and no note
    (or an empty one); every other line starts with the sentence that asks to
    apply the saved preferences. *)
Theorem X18_memory_line ns (entries : list (jsstring * pval)) (notes : option jsstring) :
  (memoryLine ns entries notes = None ↔ summarizePrefs ns entries = None)
  ∧ (memoryLine ns entries notes = Some [] ↔ entries = [] ∧ default [] notes = [])
  ∧ (∀ s, memoryLine ns entries notes = Some s →
          s = [] ∨ ∃ rest, s = lit "Apply saved user preferences when relevant. " ++ rest).
Proof.
  unfold memoryLine.
  pose proof (summarizePrefs_empty ns entries) as Hs.
  destruct (summarizePrefs ns entries) as [p|]; simpl.
  2:{ split; [done|]. split; [|done]. split; [done|].
      intros [-> _]. discriminate (proj2 Hs eq_refl). }
  split; [done|].
  assert (Hp : p = [] ↔ entries = []).
  { rewrite <- Hs. split; [now intros ->|now intros [= ->]]. }
  destruct (decide (p = [])) as [Hpe|Hpe];
    destruct (decide (default [] notes = [])) as [Hn|Hn].
  - rewrite !bool_decide_eq_true_2 by done. simpl.
    split; [|intros s [= <-]; now left].
    split; [|done]. intros _. split; [now apply Hp|done].
  - rewrite (bool_decide_eq_true_2 _ Hpe), (bool_decide_eq_false_2 _ Hn). simpl.
    split; [|intros s [= <-]; right; now eexists].
    split; [done|]. now intros [_ H].
  - rewrite (bool_decide_eq_false_2 _ Hpe). simpl.
    split; [|intros s [= <-]; right; now eexists].
    split; [done|]. intros [H _]. now apply Hp in H.
  - rewrite (bool_decide_eq_false_2 _ Hpe). simpl.
    split; [|intros s [= <-]; right; now eexists].
    split; [done|]. now intros [_ H].
Qed.

(** An array with an object that has a key ["toString"], in the ninth
    entry: the first eight entries alone are summarized, all nine throw. *)
Example ex_summarizePrefs_throws :
  let eight := (fun k => (k, PBool true)) <$> [lit "a"; lit "b"; lit "c"; lit "d";
                                                lit "e"; lit "f"; lit "g"; lit "h"] in
  let ninth := (lit "likes", PList [PMap {[ lit "toString" := PNum 1 ]}]) in
  summarizePrefs decimalZ (eight ++ [ninth]) = None
  ∧ memoryLine decimalZ (eight ++ [ninth]) None = None
  ∧ summarizePrefs decimalZ eight
    = Some (lit "a=true; b=true; c=true; d=true; e=true; f=true; g=true; h=true")
  ∧ summarizePrefs decimalZ [(lit "likes", PList [PMap ∅; PNull; PList [PNum 1; PNum 2]])]
    = Some (lit "likes=[object Object], , 1,2").
Proof.
  vm_compute. repeat split.
Qed.

(** ** White space around the text of the user *)

Lemma trimStart_spaces_app (ws t : jsstring) :
  Forall (fun c => isSpace c = true) ws → trimStart (ws ++ t) = trimStart t.
Proof. induction 1 as [|c ws Hc _ IH]; [done|]. simpl. now rewrite Hc. Qed.

Lemma trimStart_app_spaces (t ws : jsstring) :
  Forall (fun c => isSpace c = true) ws →
  trimStart (t ++ ws) = match trimStart t with [] => [] | _ :: _ => trimStart t ++ ws end.
Proof.
  intros Hws. induction t as [|c t IH]; simpl.
  - now apply trimStart_spaces.
  - destruct (isSpace c); [exact IH|done].
Qed.

Lemma trim_padding (ws1 t ws2 : jsstring) :
  Forall (fun c => isSpace c = true) ws1 →
  Forall (fun c => isSpace c = true) ws2 →
  trim (ws1 ++ t ++ ws2) = trim t.
Proof.
  intros H1 H2. unfold trim.
  rewrite trimStart_spaces_app, trimStart_app_spaces by done.
  destruct (trimStart t) as [|c r] eqn:E; [done|].
  rewrite reverse_app, trimStart_spaces_app; [done|].
  now apply Forall_reverse.
Qed.

(** X19.  White space around the text of the last user message does not
    count: the padded message and the bare one give the same
    [lastUserText], so [onChatMessage] classifies and fingerprints them
    alike. *)
Theorem X19_padding_is_ignored (msgs : list Message) (ws1 t ws2 : jsstring) :
  Forall (fun c => isSpace c = true) ws1 →
  Forall (fun c => isSpace c = true) ws2 →
  lastUserText (msgs ++ [{| role := user; parts := [TextPart (ws1 ++ t ++ ws2)] |}])
  = lastUserText (msgs ++ [{| role := user; parts := [TextPart t] |}])
  ∧ itineraryIdFrom
      (lastUserText (msgs ++ [{| role := user; parts := [TextPart (ws1 ++ t ++ ws2)] |}]))
    = itineraryIdFrom (trim t).
Proof.
  intros H1 H2.
  rewrite !(lastUserText_split msgs []) by (done || constructor).
  simpl. now rewrite trim_padding.
Qed.

Lemma X19_padding_is_ignored_witness :
  lastUserText [{| role := user; parts := [TextPart ([32; 10] ++ lit "trip" ++ [9])] |}]
  = lastUserText [{| role := user; parts := [TextPart (lit "trip")] |}].
Proof.
  apply (X19_padding_is_ignored [] [32; 10] (lit "trip") [9]); repeat constructor.
Defined.

(** ** One changed character *)

(** 31 has an inverse modulo 2^32. *)
Lemma power_of_31_invertible (k : N) :
  (31 ^ k * 3186588639 ^ k) mod 2 ^ 32 = 1.
Proof.
  rewrite <- N.pow_mul_l. induction k as [|k IH] using N.peano_ind; [reflexivity|].
  rewrite N.pow_succ_r', N.Div0.mul_mod, IH. reflexivity.
Qed.

Lemma odd_power_cancels (a b k : N) :
  a < 2 ^ 32 → b < 2 ^ 32 →
  (a * 31 ^ k) mod 2 ^ 32 = (b * 31 ^ k) mod 2 ^ 32 → a = b.
Proof.
  intros Ha Hb H.
  assert (E : ∀ x, x < 2 ^ 32 →
                x = ((x * 31 ^ k) mod 2 ^ 32 * 3186588639 ^ k) mod 2 ^ 32).
  { intros x Hx. rewrite N.Div0.mul_mod_idemp_l, <- N.mul_assoc.
    rewrite <- N.Div0.mul_mod_idemp_r, power_of_31_invertible, N.mul_1_r.
    now rewrite N.mod_small. }
  rewrite (E a Ha), (E b Hb). now rewrite H.
Qed.

(** X20.  Two texts that differ in one code unit and agree everywhere else
    never have the same fingerprint: 31 is odd, so the difference of their
    hashes is not a multiple of 2^32.  The fingerprint tells "Trip" from
    "trip". *)
Theorem X20_one_changed_unit_changes_the_fingerprint (pre post : jsstring) (c c' : N) :
  c < 65536 → c' < 65536 → c ≠ c' →
  itineraryIdFrom (pre ++ c :: post) ≠ itineraryIdFrom (pre ++ c' :: post).
Proof.
  intros Hc Hc' Hne H. apply Hne.
  rewrite !itineraryIdFrom_polynomial in H. apply app_inv_head in H.
  assert (Hp : polynomial (pre ++ c :: post) mod 2 ^ 32
               = polynomial (pre ++ c' :: post) mod 2 ^ 32).
  { destruct (toString16_digits _ (polynomial_range (pre ++ c :: post))) as (_ & _ & <-).
    destruct (toString16_digits _ (polynomial_range (pre ++ c' :: post))) as (_ & _ & <-).
    now rewrite H. }
  rewrite !polynomial_app in Hp. cbn [polynomial length] in Hp.
  apply (odd_power_cancels c c' (N.of_nat (length post))); [lia|lia|].
  set (A := polynomial pre * _) in Hp. set (P := 31 ^ N.of_nat (length post)) in *.
  set (B := polynomial post) in Hp.
  set (K := 2 ^ 32 - (A + B) mod 2 ^ 32).
  assert (HK : ((A + B) mod 2 ^ 32 + K) mod 2 ^ 32 = 0).
  { pose proof (N.mod_upper_bound (A + B) (2 ^ 32) ltac:(lia)). subst K.
    replace ((A + B) mod 2 ^ 32 + (2 ^ 32 - (A + B) mod 2 ^ 32)) with (2 ^ 32) by lia.
    reflexivity. }
  assert (E : ∀ x, (x * P) mod 2 ^ 32
                   = ((A + (x * P + B)) mod 2 ^ 32 + K) mod 2 ^ 32).
  { intros x. rewrite N.Div0.add_mod_idemp_l.
    replace (A + (x * P + B) + K) with (x * P + ((A + B) + K)) by lia.
    rewrite <- N.Div0.add_mod_idemp_r, <- (N.Div0.add_mod_idemp_l (A + B)), HK.
    now rewrite N.add_0_r. }
  now rewrite (E c), (E c'), Hp.
Qed.

Lemma X20_one_changed_unit_changes_the_fingerprint_witness :
  itineraryIdFrom ([] ++ 84 :: lit "rip to Rome") ≠ itineraryIdFrom ([] ++ 116 :: lit "rip to Rome").
Proof.
  apply X20_one_changed_unit_changes_the_fingerprint; lia.
Defined.
Example ex_classify_tokyo :
  looksLikeItineraryRequest (lit "Create me a 3 day trip in Tokyo") = true.
Proof. vm_compute. reflexivity. Qed.

Example ex_id_tokyo :
  itineraryIdFrom (lit "Create me a 3 day trip in Tokyo") = lit "itn-6f1a32b2".
Proof. vm_compute. reflexivity. Qed.

Example ex_classify_misc :
  map (fun s => looksLikeItineraryRequest (lit s))
    ["3days"; "10   DAYS in Rome"; "a3 days"; "3 daysx"; "someday"; "trips";
     "Weekend away"; "weekly"; "my ITINERARY."; "hello"; ""; "day 3"; "x 3day"]
  = [true; true; false; false; false; false; true; false; true; false; false; false; true].
Proof. vm_compute. reflexivity. Qed.

Example ex_parse_misc :
  map JSON_parse
    [lit "hello"; lit "null"; lit " [1, 2.5,-3e2 ] "; lit "{}"; lit "{ }";
     lit "[]"; lit "01"; lit "-"; lit "1."; lit "[1,]"; lit "1 2";
     lit "9007199254740992"; lit "-0"; lit "tru";
     [34] ++ lit "a\nA\/" ++ [34];
     lit "{" ++ [34; 97; 34] ++ lit ":1," ++ [34; 98; 34] ++ lit ":{"
       ++ [34; 99; 34] ++ lit ":[true,false,null]}," ++ [34; 97; 34] ++ lit ":2}";
     lit "{" ++ [34; 97; 34] ++ lit ":1,}"]
  = [None; Some JNull;
     Some (JArr [JNum 1; JNumLit (lit "2.5"); JNumLit (lit "-3e2")]);
     Some (JObj []); Some (JObj []); Some (JArr []); None; None; None; None;
     None; Some (JNumLit (lit "9007199254740992")); Some (JNum 0); None;
     Some (JStr [97; 10; 65; 47]);
     Some (JObj [(lit "a", JNum 2);
                 (lit "b", JObj [(lit "c", JArr [JBool true; JBool false; JNull])])]);
     None].
Proof. vm_compute. reflexivity. Qed.

Example ex_stringify_misc :
  JSON_stringify
    (JObj [(lit "id", JStr [34; 10; 1; 55357; 56832; 56832; 233]);
           (lit "retry", JNum (-120)); (lit "l", JArr [JNum 0; JNull])])
  = lit "{" ++ [34] ++ lit "id" ++ [34] ++ lit ":" ++ [34] ++ lit "\" ++ [34]
      ++ lit "\n\u0001" ++ [55357; 56832] ++ lit "\ude00" ++ [233; 34]
      ++ lit "," ++ [34] ++ lit "retry" ++ [34] ++ lit ":-120,"
      ++ [34; 108; 34] ++ lit ":[0,null]}".
Proof. vm_compute. reflexivity. Qed.

Example ex_lastUserText :
  lastUserText
    [{| role := user; parts := [TextPart (lit "hello")] |};
     {| role := assistant; parts := [TextPart (lit "hi")] |};
     {| role := user; parts := [OtherPart; TextPart (lit "  a weekend in Rome ")] |};
     {| role := assistant; parts := [TextPart (lit "Day 1")] |}]
  = lit "a weekend in Rome".
Proof. vm_compute. reflexivity. Qed.

(** On the JSON text [null] the handler throws; a truthy [itineraryId] that
    is a number passes the test of the kind and leaves through a guard. *)
Example ex_executeTask_edges :
  executeTask plainRuntime (lit "null") GenThrows initialWorld = (Threw, initialWorld)
  ∧ executeTask plainRuntime
      (JSON_stringify (JObj [(lit "kind", JStr (lit "altItinerary"));
                             (lit "itineraryId", JNum 7)]))
      (GenText (lit "Day 1")) initialWorld
    = (Returned, initialWorld)
  ∧ fallsToDefault plainRuntime
      (JSON_stringify (JObj [(lit "kind", JStr (lit "altItinerary"));
                             (lit "itineraryId", JStr [])])) = true.
Proof. vm_compute. repeat split. Qed.

(** A key that only [Object.prototype] has reads as truthy. *)
Example ex_offered_inherited :
  offered ∅ (lit "constructor") = true
  ∧ offered {[lit "constructor" := false]} (lit "constructor") = false
  ∧ offered ∅ (lit "itn-0") = false.
Proof. vm_compute. repeat split. Qed.

Example ex_nextRetry :
  map (nextRetry plainRuntime)
    [None; Some JNull; Some (JNum 0); Some (JNum 1); Some (JNum (-3));
     Some (JBool false); Some (JBool true)]
  = [Some (JNum 1); Some (JNum 1); Some (JNum 1); None; Some (JNum (-2));
     Some (JNum 1); None].
Proof. reflexivity. Qed.

Example ex_summarizePrefs :
  summarizePrefs decimalZ
    [(lit "budget", PNum 150);
     (lit "home", PMap {[lit "city" := PStr (lit "Toronto")]});
     (lit "likes", PList [PStr (lit "anime"); PNull; PList [PNum 1; PNum 2]]);
     (lit "redeye", PBool false); (lit "x", PNull)]
  = Some (lit "budget=150; home=[" ++ [8230]
          ++ lit "]; likes=anime, , 1,2; redeye=false; x=null").
Proof. vm_compute. reflexivity. Qed.

Example ex_memoryLine :
  memoryLine decimalZ [(lit "budget", PNum 150)] (Some (lit "vegan"))
  = Some (lit "Apply saved user preferences when relevant. Prefs: budget=150. Notes: vegan")
  ∧ memoryLine decimalZ [] (Some []) = Some []
  ∧ memoryLine decimalZ [] (Some (lit "vegan"))
    = Some (lit "Apply saved user preferences when relevant.  Notes: vegan").
Proof. vm_compute. repeat split. Qed.
